(** * The Havven market simulation: agents, ledger, mint and model step

    A shallow embedding of [agents/marketplayer.py] and
    [simulation/model.py], with the collaborators those files call but
    which are not among the sources (the rounding helper of
    [HavvenManager], the ledger transfers of the market manager, the mint,
    the order books) either kept abstract behind an interface or modelled
    from the specification, each such definition saying so.

    The quantities of [marketplayer.py] are Python [Decimal]s.  They are
    embedded as canonical rationals [Qc], on which [=] is numeric
    equality.  A [Decimal] operation returns the exact result rounded to
    the context precision (28 significant digits): [wealth], whose
    properties depend on it, keeps that rounding ([dec_add], [dec_sub]);
    the other operations are embedded for operands and results that fit
    the context precision, where the rounding is the identity.  The
    curits of [model.py] are of the number type its callers pass, with
    the arithmetic of that type ([Model.Number]). *)

From Stdlib Require Import ZArith QArith Qcanon Qround Qpower Lia Lqa.
From stdpp Require Import base numbers option list.

Local Open Scope Qc_scope.

(** ** Decimal quantities *)

Abbreviation Dec := Qc (only parsing).

(** [dec n d] is the decimal literal [n/d], e.g. [Dec('0.0005')] is
    [dec 5 10000]. *)
Definition dec (n : Z) (d : positive) : Dec := Q2Qc (n # d).

(** Python's builtin [min(a, b)]: the first argument unless the second is
    strictly smaller. *)
Definition dec_min (a b : Dec) : Dec := if decide (b < a)%Qc then b else a.

(** Python's builtin [max(a, b)]: the first argument unless the second is
    strictly larger. *)
Definition dec_max (a b : Dec) : Dec := if decide (a < b)%Qc then b else a.

(** The literal [Dec('0.0005')] of [_sell_quoted]. *)
Definition dust : Dec := dec 5 10000.

(** Modelled from the spec: the rounding rule of [round_decimal] on
    integers, round-half-even (4.1): the nearest integer, a tie going to
    the even neighbour. *)
Definition round_half_even (x : Q) : Z :=
  let f := Qfloor x in
  match Qcompare (x - inject_Z f) (1 # 2) with
  | Lt => f
  | Gt => (f + 1)%Z
  | Eq => if Z.even f then f else (f + 1)%Z
  end.

(** The number of units of the last kept decimal place in one whole unit. *)
Definition scale (places : nat) : Z := (10 ^ Z.of_nat places)%Z.

(** Modelled from the spec: [HavvenManager.round_decimal] is called by
    [marketplayer.py] but its class is not among the sources.  The
    specification (4.1) fixes it as the one canonical rounding rule,
    round-half-even to a fixed decimal precision; the number of decimal
    places is left open there and is the parameter [places]. *)
Definition round_to (places : nat) (x : Dec) : Dec :=
  Q2Qc (round_half_even (this x * inject_Z (scale places)) # Z.to_pos (scale places)).

(** A quantity with no digits beyond the kept decimal places. *)
Definition on_grid (places : nat) (x : Dec) : Prop :=
  exists k : Z, x = Q2Qc (k # Z.to_pos (scale places)).


(** ** The arithmetic of [Decimal] and [float]

    An arithmetic operation of [decimal] or on [float]s returns the exact
    result rounded to the precision of the type: a fixed number of
    significant digits in the radix of the type, a tie going to the even
    neighbour.  The exponent range of the types is taken as unbounded:
    no overflow, no subnormal numbers. *)

(** The magnitude of a rational [x >= 1]: the [e] with
    [radix^e <= x < radix^(e+1)], found by dividing. *)
Fixpoint mag_up (radix : Z) (fuel : nat) (x : Q) : Z :=
  match fuel with
  | O => 0%Z
  | S f => match (x ?= inject_Z radix)%Q with
           | Lt => 0%Z
           | _ => (mag_up radix f (x / inject_Z radix) + 1)%Z
           end
  end.

(** The magnitude of a rational [0 < x < 1], found by multiplying. *)
Fixpoint mag_down (radix : Z) (fuel : nat) (x : Q) : Z :=
  match fuel with
  | O => (-1)%Z
  | S f => match (x * inject_Z radix ?= 1)%Q with
           | Lt => (mag_down radix f (x * inject_Z radix) - 1)%Z
           | _ => (-1)%Z
           end
  end.

(** The magnitude of a positive rational; the sizes of its numerator and
    denominator bound the search. *)
Definition mag (radix : Z) (x : Q) : Z :=
  match (x ?= 1)%Q with
  | Lt => mag_down radix (Pos.size_nat (Qden x)) x
  | _ => mag_up radix (Pos.size_nat (Z.to_pos (Qnum x))) x
  end.

(** A positive rational rounded to [prec] significant digits. *)
Definition round_pos (radix prec : Z) (x : Q) : Q :=
  let s := (inject_Z radix ^ (prec - 1 - mag radix x))%Q in
  (inject_Z (round_half_even (x * s)) / s)%Q.

(** A rational rounded to [prec] significant digits: sign and rounded
    magnitude, as the types store them. *)
Definition round_sig (radix prec : Z) (x : Q) : Q :=
  match (x ?= 0)%Q with
  | Eq => 0%Q
  | Gt => round_pos radix prec x
  | Lt => (- round_pos radix prec (- x))%Q
  end.

Definition round_to_digits (radix prec : Z) (x : Dec) : Dec :=
  Q2Qc (round_sig radix prec (this x)).

(** The default context of [decimal]: 28 significant digits,
    [ROUND_HALF_EVEN]. *)
Definition context_round : Dec -> Dec := round_to_digits 10 28.

(** [Decimal.__add__] and [Decimal.__sub__] under the default context. *)
Definition dec_add (x y : Dec) : Dec := context_round (x + y).

Definition dec_sub (x y : Dec) : Dec := context_round (x - y).

(** ** Exceptions and the state monad of the simulation *)

(** The Python exceptions the embedded code can raise ([DivisionByZero]
    and [InvalidOperation] of [decimal], [ZeroDivisionError] of integer
    arithmetic), the explicit failure the specification asks of an order
    book that has no price to give ([EmptyBook]), and two outcomes that
    belong to the embedding only: [OutOfFuel] cuts a [while] loop that
    has not finished within the given number of iterations, and
    [DanglingReference] stands for an arena index that names no agent (a
    Python reference always names an object). *)
Inductive Exn : Type :=
  | DivisionByZero
  | InvalidOperation
  | ZeroDivisionError
  | EmptyBook
  | OutOfFuel
  | DanglingReference.

(** A computation over a mutable state [S]: it ends in a value or in an
    exception, and in both cases in a state (Python does not roll back). *)
Definition M (S A : Type) : Type := S -> (Exn + A) * S.

Definition ret {S A} (a : A) : M S A := fun s => (inr a, s).

Definition raise {S A} (e : Exn) : M S A := fun s => (inl e, s).

Definition bind {S A B} (m : M S A) (k : A -> M S B) : M S B :=
  fun s => match m s with
           | (inr a, s') => k a s'
           | (inl e, s') => (inl e, s')
           end.

Definition gets {S A} (f : S -> A) : M S A := fun s => (inr (f s), s).

Definition modify {S} (f : S -> S) : M S unit := fun s => (inr tt, f s).

(** A pure computation that may raise, run inside a stateful one. *)
Definition lift {S A} (r : Exn + A) : M S A := fun s => (r, s).

Notation "x <- m ;; k" := (bind m (fun x => k))
  (at level 100, m at next level, right associativity).
Notation "m ;;; k" := (bind m (fun _ => k))
  (at level 100, right associativity).

(** [Decimal.__truediv__] under the default context: a zero divisor traps,
    as [InvalidOperation] for [0/0] and as [DivisionByZero] otherwise. *)
Definition dec_div (x y : Dec) : Exn + Dec :=
  if decide (y = 0) then
    if decide (x = 0) then inl InvalidOperation else inl DivisionByZero
  else inr (x / y).

(** ** [agents/marketplayer.py] *)

Inductive Currency : Type := Fiat | Havvens | Nomins.

(** The attributes of a [MarketPlayer] that hold quantities.  The order and
    trade histories ([orders], [trades]) are bookkeeping no operation below
    reads; they are left out. *)
Record MarketPlayer : Type := mkMarketPlayer {
  fiat : Dec;
  havvens : Dec;
  nomins : Dec;
  escrowed_havvens : Dec;
  issued_nomins : Dec;
  unavailable_fiat : Dec;
  unavailable_havvens : Dec;
  unavailable_nomins : Dec;
  initial_wealth : Dec
}.

(** What an agent reaches through [self.model] and [hm] without owning it:
    the currency precision of [HavvenManager.round_decimal], and the
    valuation oracle [model.fiat_value(havvens=, nomins=, fiat=)], an
    external collaborator (specification, section 6). *)
Class HavvenModel : Type := {
  currency_precision : nat;
  fiat_value : Dec -> Dec -> Dec -> Dec
}.

Definition round_decimal `{HavvenModel} (value : Dec) : Dec :=
  round_to currency_precision value.

Definition available_fiat `{HavvenModel} (self : MarketPlayer) : Dec :=
  round_decimal (fiat self - unavailable_fiat self).

Definition available_havvens `{HavvenModel} (self : MarketPlayer) : Dec :=
  round_decimal (havvens self - unavailable_havvens self).

Definition available_nomins `{HavvenModel} (self : MarketPlayer) : Dec :=
  round_decimal (nomins self - unavailable_nomins self).

(** [self.__getattribute__(f"available_{name}")], the name ranging over the
    three currencies. *)
Definition available `{HavvenModel} (X : Currency) (self : MarketPlayer) : Dec :=
  match X with
  | Fiat => available_fiat self
  | Havvens => available_havvens self
  | Nomins => available_nomins self
  end.

Definition balance (X : Currency) (self : MarketPlayer) : Dec :=
  match X with
  | Fiat => fiat self
  | Havvens => havvens self
  | Nomins => nomins self
  end.

Definition unavailable (X : Currency) (self : MarketPlayer) : Dec :=
  match X with
  | Fiat => unavailable_fiat self
  | Havvens => unavailable_havvens self
  | Nomins => unavailable_nomins self
  end.

Definition set_balance (X : Currency) (v : Dec) (p : MarketPlayer) : MarketPlayer :=
  match X with
  | Fiat =>
      mkMarketPlayer v (havvens p) (nomins p) (escrowed_havvens p) (issued_nomins p)
        (unavailable_fiat p) (unavailable_havvens p) (unavailable_nomins p) (initial_wealth p)
  | Havvens =>
      mkMarketPlayer (fiat p) v (nomins p) (escrowed_havvens p) (issued_nomins p)
        (unavailable_fiat p) (unavailable_havvens p) (unavailable_nomins p) (initial_wealth p)
  | Nomins =>
      mkMarketPlayer (fiat p) (havvens p) v (escrowed_havvens p) (issued_nomins p)
        (unavailable_fiat p) (unavailable_havvens p) (unavailable_nomins p) (initial_wealth p)
  end.

Definition set_unavailable (X : Currency) (v : Dec) (p : MarketPlayer) : MarketPlayer :=
  match X with
  | Fiat =>
      mkMarketPlayer (fiat p) (havvens p) (nomins p) (escrowed_havvens p) (issued_nomins p)
        v (unavailable_havvens p) (unavailable_nomins p) (initial_wealth p)
  | Havvens =>
      mkMarketPlayer (fiat p) (havvens p) (nomins p) (escrowed_havvens p) (issued_nomins p)
        (unavailable_fiat p) v (unavailable_nomins p) (initial_wealth p)
  | Nomins =>
      mkMarketPlayer (fiat p) (havvens p) (nomins p) (escrowed_havvens p) (issued_nomins p)
        (unavailable_fiat p) (unavailable_havvens p) v (initial_wealth p)
  end.

Definition set_issued_nomins (v : Dec) (p : MarketPlayer) : MarketPlayer :=
  mkMarketPlayer (fiat p) (havvens p) (nomins p) (escrowed_havvens p) v
    (unavailable_fiat p) (unavailable_havvens p) (unavailable_nomins p) (initial_wealth p).

Definition wealth `{HavvenModel} (self : MarketPlayer) : Dec :=
  fiat_value (dec_add (havvens self) (escrowed_havvens self))
             (dec_sub (nomins self) (issued_nomins self))
             (fiat self).

Definition profit `{HavvenModel} (self : MarketPlayer) : Dec :=
  wealth self - initial_wealth self.

Definition profit_fraction `{HavvenModel} (self : MarketPlayer) : Exn + Dec :=
  if decide (round_decimal (initial_wealth self) <> 0) then
    match dec_div (profit self) (initial_wealth self) with
    | inr q => inr (round_decimal q)
    | inl e => inl e
    end
  else inr 0.

(** *** The world an agent acts in *)

(** The three order books an agent reaches through
    [self.model.market_manager]. *)
Inductive Market : Type := HavvenFiat | NominFiat | HavvenNomin.

(** Modelled from the spec: [core.orderbook.LimitOrder] is not among the
    sources.  Specification 3: an order has its submission sequence
    number, owning account (by id), limit price and remaining quantity;
    its active flag is not stored, an order being active exactly while
    it rests in a queue. *)
Record LimitOrder : Type := mkLimitOrder {
  order_id : nat;
  owner : nat;
  price : Dec;
  quantity : Dec
}.

(** Modelled from the spec: [core.orderbook.OrderBook] is not among the
    sources.  Specification 3: base and quoted asset, bid queue by (price
    descending, sequence ascending), ask queue by (price ascending,
    sequence ascending), fee rate; [immediate_match] tells whether a
    submission crosses at once (4.2), [next_id] is the next sequence
    number. *)
Record OrderBook : Type := mkOrderBook {
  base : Currency;
  quoted : Currency;
  bids : list LimitOrder;
  asks : list LimitOrder;
  fee_rate : Dec;
  immediate_match : bool;
  next_id : nat
}.

(** The shared state: the arena of agents (an agent is referred to by its
    index), the three books, and the fees collected so far, one entry per
    trade leg. *)
Record World : Type := mkWorld {
  agents : list MarketPlayer;
  havven_fiat_market : OrderBook;
  nomin_fiat_market : OrderBook;
  havven_nomin_market : OrderBook;
  fees : list (Currency * Dec)
}.

Definition book_of (m : Market) (w : World) : OrderBook :=
  match m with
  | HavvenFiat => havven_fiat_market w
  | NominFiat => nomin_fiat_market w
  | HavvenNomin => havven_nomin_market w
  end.

Definition with_agents (l : list MarketPlayer) (w : World) : World :=
  mkWorld l (havven_fiat_market w) (nomin_fiat_market w) (havven_nomin_market w) (fees w).

Definition with_book (m : Market) (b : OrderBook) (w : World) : World :=
  match m with
  | HavvenFiat => mkWorld (agents w) b (nomin_fiat_market w) (havven_nomin_market w) (fees w)
  | NominFiat => mkWorld (agents w) (havven_fiat_market w) b (havven_nomin_market w) (fees w)
  | HavvenNomin => mkWorld (agents w) (havven_fiat_market w) (nomin_fiat_market w) b (fees w)
  end.

Definition with_fees (l : list (Currency * Dec)) (w : World) : World :=
  mkWorld (agents w) (havven_fiat_market w) (nomin_fiat_market w) (havven_nomin_market w) l.

Definition update_agent (i : nat) (f : MarketPlayer -> MarketPlayer) (w : World) : World :=
  with_agents (alter f i (agents w)) w.

(** Dereference an agent. *)
Definition agent_ref (i : nat) : M World MarketPlayer :=
  fun w => match agents w !! i with
           | Some p => (inr p, w)
           | None => (inl DanglingReference, w)
           end.

(** [order.active], read off the model of the book: the order still rests
    in one of the book's queues. *)
Definition order_active (m : Market) (id : nat) (w : World) : bool :=
  existsb (fun o => Nat.eqb (order_id o) id) (bids (book_of m w) ++ asks (book_of m w)).

(** The methods of [core.orderbook.OrderBook] (and [LimitOrder.cancel])
    that [marketplayer.py] calls.  The module is not among the sources, so
    the agent code is embedded against this interface; an order is handed
    around by its sequence number. *)
Class OrderBookOps : Type := {
  lowest_ask_price : Market -> M World Dec;
  lowest_ask_quantity : Market -> M World Dec;
  buy : Market -> Dec -> nat -> M World (option nat);
  bid : Market -> Dec -> Dec -> nat -> M World (option nat);
  cancel : Market -> nat -> M World bool
}.

Section SellQuoted.
Context `{HavvenModel} `{OrderBookOps}.

(** [self.__getattribute__(f"available_{book.quoted}")]. *)
Definition available_quoted (book : Market) (self : nat) : M World Dec :=
  p <- agent_ref self ;;
  X <- gets (fun w => quoted (book_of book w)) ;;
  ret (available X p).

(** The guard of the [while] loop of [_sell_quoted]:
    [bid is not None and not bid.active and total_sold < quantity and
    len(book.asks) == 0]. *)
Definition keep_bidding (book : Market) (bid : option nat) (total_sold quantity : Dec)
  : M World bool :=
  match bid with
  | None => ret false
  | Some b =>
      active <- gets (order_active book b) ;;
      n_asks <- gets (fun w => length (asks (book_of book w))) ;;
      ret (negb active && bool_decide (total_sold < quantity)%Qc && Nat.eqb n_asks 0)
  end.

(** The [while] loop of [_sell_quoted], cut after [fuel] iterations. *)
Fixpoint keep_on_bidding (fuel : nat) (book : Market) (self : nat) (quantity : Dec)
    (bid : option nat) (total_sold : Dec) : M World (option nat * Dec) :=
  go_on <- keep_bidding book bid total_sold quantity ;;
  if go_on : bool then
    match fuel with
    | O => raise OutOfFuel
    | S fuel' =>
        level_qty <- lowest_ask_quantity book ;;
        level_price <- lowest_ask_price book ;;
        q <- lift (dec_div (dec_min (quantity - total_sold) level_qty) level_price) ;;
        let next_qty := round_decimal q in
        pre_sold <- available_quoted book self ;;
        bid' <- buy book next_qty self ;;
        post_sold <- available_quoted book self ;;
        keep_on_bidding fuel' book self quantity bid' (total_sold + (pre_sold - post_sold))
    end
  else ret (bid, total_sold).

Definition _sell_quoted (fuel : nat) (book : Market) (self : nat) (quantity : Dec)
  : M World (option nat) :=
  remaining_quoted <- available_quoted book self ;;
  let quantity := dec_min quantity remaining_quoted in
  if decide (quantity < dust)%Qc then ret None
  else
    level_qty <- lowest_ask_quantity book ;;
    level_price <- lowest_ask_price book ;;
    q <- lift (dec_div (dec_min quantity level_qty) level_price) ;;
    let next_qty := round_decimal q in
    pre_sold <- available_quoted book self ;;
    bid0 <- buy book next_qty self ;;
    post_sold <- available_quoted book self ;;
    let total_sold := pre_sold - post_sold in
    r <- keep_on_bidding fuel book self quantity bid0 total_sold ;;
    let '(bid1, total_sold) := r in
    if decide (total_sold < quantity)%Qc then
      (match bid1 with
       | Some b => cancel book b ;;; ret tt
       | None => ret tt
       end) ;;;
      price <- lowest_ask_price book ;;
      q <- lift (dec_div (quantity - total_sold) price) ;;
      bid book price (round_decimal q) self
    else ret bid1.

Definition sell_nomins_for_havvens (fuel : nat) (self : nat) (quantity : Dec)
  : M World (option nat) :=
  _sell_quoted fuel HavvenNomin self quantity.

Definition sell_fiat_for_havvens (fuel : nat) (self : nat) (quantity : Dec)
  : M World (option nat) :=
  _sell_quoted fuel HavvenFiat self quantity.

Definition sell_fiat_for_nomins (fuel : nat) (self : nat) (quantity : Dec)
  : M World (option nat) :=
  _sell_quoted fuel NominFiat self quantity.

End SellQuoted.

(** ** Collaborators modelled from the specification *)

Module MarketManager.

(** Modelled from the spec: [market_manager.transfer_fiat],
    [transfer_havvens] and [transfer_nomins], which
    [MarketPlayer.transfer_*_to] delegate to, are not among the sources.
    Specification 4.1, [transfer(from, to, asset, qty)]: fails with
    InsufficientBalance if [qty > available_X(from)]; otherwise
    decrements [from.balance_X] and increments [to.balance_X], the one
    canonical rounding rule being applied at every mutation.
    Specification 7: a request for a non-positive quantity is a no-op
    with no balance change.  Failure and no-op are the result [false]:
    the callers return [bool], [True] on success. *)
Definition transfer `{HavvenModel} (X : Currency) (sender recipient : nat) (value : Dec)
  : M World bool :=
  s <- agent_ref sender ;;
  agent_ref recipient ;;;
  if decide (value <= 0)%Qc then ret false
  else if decide (available X s < value)%Qc then ret false
  else
    modify (update_agent sender
              (fun p => set_balance X (round_decimal (balance X p - value)) p)) ;;;
    modify (update_agent recipient
              (fun p => set_balance X (round_decimal (balance X p + value)) p)) ;;;
    ret true.

End MarketManager.

(** The total system supply of an asset: the sum of its balances. *)
Definition supply (X : Currency) (w : World) : Dec :=
  foldr (fun p acc => balance X p + acc) 0 (agents w).

Definition transfer_fiat_to `{HavvenModel} (self recipient : nat) (value : Dec)
  : M World bool :=
  MarketManager.transfer Fiat self recipient value.

Definition transfer_havvens_to `{HavvenModel} (self recipient : nat) (value : Dec)
  : M World bool :=
  MarketManager.transfer Havvens self recipient value.

Definition transfer_nomins_to `{HavvenModel} (self recipient : nat) (value : Dec)
  : M World bool :=
  MarketManager.transfer Nomins self recipient value.

(** What the mint is given from outside: the price oracle converting
    havvens to nomins (derived from market state, which no mint operation
    changes) and the utilisation ratio cap. *)
Class MintOracle : Type := {
  havven_nomin_price : Dec;
  utilisation_ratio_max : Dec
}.

Module Mint.

(** Modelled from the spec: the mint is not among the sources.
    Specification 3: [max_issuance_rights(a) = escrowed_collateral(a) *
    price(collateral->stable) * utilisation_ratio_max]. *)
Definition max_issuance_rights `{MintOracle} (p : MarketPlayer) : Dec :=
  escrowed_havvens p * havven_nomin_price * utilisation_ratio_max.

(** Modelled from the spec: [mint.issue_nomins] is not among the
    sources.  Specification 4.3, [issue(account, qty)]: fails with
    InsufficientIssuanceRights if [qty > max_issuance_rights(account) -
    issued_stable(account)]; otherwise increases both [stable] and
    [issued_stable] by [qty], the rounding rule of 4.1 being applied at
    the mutation.  Specification 7: a request for a non-positive
    quantity is a no-op, the result [false]. *)
Definition issue_nomins `{HavvenModel} `{MintOracle} (agent : nat) (value : Dec)
  : M World bool :=
  p <- agent_ref agent ;;
  if decide (value <= 0)%Qc then ret false
  else if decide (max_issuance_rights p - issued_nomins p < value)%Qc then ret false
  else
    modify (update_agent agent (fun p =>
      set_issued_nomins (round_decimal (issued_nomins p + value))
        (set_balance Nomins (round_decimal (nomins p + value)) p))) ;;;
    ret true.

(** Modelled from the spec: [mint.burn_nomins] is not among the sources.
    Specification 4.3, [burn(account, qty)]: fails with
    InsufficientBalance if [qty > available_stable] or [qty >
    issued_stable]; decreases both by [qty], the rounding rule of 4.1
    being applied at the mutation.  Specification 7: a request for a
    non-positive quantity is a no-op, the result [false]. *)
Definition burn_nomins `{HavvenModel} (agent : nat) (value : Dec) : M World bool :=
  p <- agent_ref agent ;;
  if decide (value <= 0)%Qc then ret false
  else if decide (available_nomins p < value)%Qc then ret false
  else if decide (issued_nomins p < value)%Qc then ret false
  else
    modify (update_agent agent (fun p =>
      set_issued_nomins (round_decimal (issued_nomins p - value))
        (set_balance Nomins (round_decimal (nomins p - value)) p))) ;;;
    ret true.

End Mint.

Definition issue_nomins `{HavvenModel} `{MintOracle} (self : nat) (value : Dec)
  : M World bool :=
  Mint.issue_nomins self value.

Definition burn_nomins `{HavvenModel} (self : nat) (value : Dec) : M World bool :=
  Mint.burn_nomins self value.

Module Book.

(** Modelled from the spec: updates of the fields of the [OrderBook] and
    [LimitOrder] records above, for the operations below. *)
Definition set_asks (l : list LimitOrder) (b : OrderBook) : OrderBook :=
  mkOrderBook (base b) (quoted b) (bids b) l (fee_rate b) (immediate_match b) (next_id b).

Definition set_bids (l : list LimitOrder) (b : OrderBook) : OrderBook :=
  mkOrderBook (base b) (quoted b) l (asks b) (fee_rate b) (immediate_match b) (next_id b).

Definition take_id (b : OrderBook) : OrderBook :=
  mkOrderBook (base b) (quoted b) (bids b) (asks b) (fee_rate b) (immediate_match b)
    (S (next_id b)).

Definition update_book (m : Market) (f : OrderBook -> OrderBook) (w : World) : World :=
  with_book m (f (book_of m w)) w.

Definition set_quantity (q : Dec) (o : LimitOrder) : LimitOrder :=
  mkLimitOrder (order_id o) (owner o) (price o) q.

(** Modelled from the spec: the ledger's [reserve] is not among the
    sources.  Specification 4.1, [reserve(account, asset, qty)]: fails
    with InsufficientBalance if [qty > available_X]; otherwise increments
    [unavailable_X]. *)
Definition reserve `{HavvenModel} (X : Currency) (qty : Dec) (p : MarketPlayer)
  : option MarketPlayer :=
  if decide (available X p < qty)%Qc then None
  else Some (set_unavailable X (unavailable X p + qty) p).

(** Modelled from the spec: the ledger's [release] is not among the
    sources.  Specification 4.1, [release(account, asset, qty)]:
    decrements [unavailable_X], clamped not to go negative. *)
Definition release (X : Currency) (qty : Dec) (p : MarketPlayer) : MarketPlayer :=
  set_unavailable X (dec_max 0 (unavailable X p - qty)) p.

(** Modelled from the spec: one execution of the matching rule (4.2) for
    [qty] units at price [px].  The buyer pays [px * qty] of the quoted
    asset and the seller gives [qty] of the base asset; the fee is
    deducted from the proceeds of each leg ([received = qty * (1 -
    fee_rate)]) and collected. *)
Definition fill (m : Market) (buyer seller : nat) (px qty : Dec) (w : World) : World :=
  let bk := book_of m w in
  let B := base bk in
  let Q := quoted bk in
  let f := fee_rate bk in
  let w1 := update_agent buyer (fun p =>
              set_balance B (balance B p + qty * (1 - f))
                (set_balance Q (balance Q p - px * qty) p)) w in
  let w2 := update_agent seller (fun p =>
              set_balance Q (balance Q p + px * qty * (1 - f))
                (set_balance B (balance B p - qty) p)) w1 in
  with_fees ((B, qty * f) :: (Q, px * qty * f) :: fees w2) w2.

(** Modelled from the spec: whether a buyer stops in front of the ask
    [a] when [qty] units would trade.  A limit order stops at an ask
    priced above its limit (matching rule, 4.2); a market order stops
    when its available quoted balance does not cover the cost (4.2,
    "bounded by the caller's available reserve"). *)
Definition stops_at `{HavvenModel} (m : Market) (buyer : nat) (limit : option Dec)
    (a : LimitOrder) (qty : Dec) (w : World) : bool :=
  match limit with
  | Some l => bool_decide (l < price a)%Qc
  | None =>
      match agents w !! buyer with
      | Some p => bool_decide (available (quoted (book_of m w)) p < price a * qty)%Qc
      | None => true
      end
  end.

(** Modelled from the spec: the crossing of an incoming buy order
    against the resting asks, best price first (matching rule, 4.2).
    Each execution is at the resting ask's price for the minimum of both
    remaining quantities; both reservations shrink by what traded; an
    ask whose remaining quantity falls below the dust threshold is
    removed and its residual reservation released.  Returns the
    quantity still wanted, the last price touched, the asks left and
    the world. *)
Fixpoint walk_asks `{HavvenModel} (m : Market) (buyer : nat) (limit : option Dec)
    (remaining : Dec) (last : option Dec) (queue : list LimitOrder) (w : World)
  : Dec * option Dec * list LimitOrder * World :=
  match queue with
  | [] => (remaining, last, [], w)
  | a :: rest =>
      let qty := dec_min remaining (quantity a) in
      if (bool_decide (remaining < dust)%Qc || stops_at m buyer limit a qty w)%bool
      then (remaining, last, queue, w)
      else
        let bk := book_of m w in
        let w1 := fill m buyer (owner a) (price a) qty w in
        let w2 := update_agent (owner a) (release (base bk) qty) w1 in
        let w3 := match limit with
                  | Some l => update_agent buyer (release (quoted bk) (l * qty)) w2
                  | None => w2
                  end in
        let left := quantity a - qty in
        if decide (left < dust)%Qc then
          walk_asks m buyer limit (remaining - qty) (Some (price a)) rest
            (update_agent (owner a) (release (base bk) left) w3)
        else (remaining - qty, Some (price a), set_quantity left a :: rest, w3)
  end.

(** Modelled from the spec: the bid queue is kept by (price descending,
    sequence ascending) (section 3). *)
Fixpoint insert_bid (o : LimitOrder) (queue : list LimitOrder) : list LimitOrder :=
  match queue with
  | [] => [o]
  | x :: rest =>
      if decide (price x < price o)%Qc then o :: queue else x :: insert_bid o rest
  end.

(** Modelled from the spec: what becomes of a bid once it is accepted
    (4.2).  In immediate-match mode it crosses the resting asks up to its
    limit; a remainder below the dust threshold counts as filled and its
    residual reservation is released, any other remainder rests in the
    bid queue. *)
Definition cross_and_rest `{HavvenModel} (m : Market) (o : LimitOrder) (w : World) : World :=
  let bk := book_of m w in
  let '(remaining, _, asks_left, w1) :=
    if immediate_match bk
    then walk_asks m (owner o) (Some (price o)) (quantity o) None (asks bk) w
    else (quantity o, None, asks bk, w) in
  let w2 := update_book m (set_asks asks_left) w1 in
  if decide (remaining < dust)%Qc
  then update_agent (owner o) (release (quoted bk) (price o * remaining)) w2
  else update_book m (fun b => set_bids (insert_bid (set_quantity remaining o) (bids b)) b) w2.

(** Modelled from the spec: [OrderBook.bid] is not among the sources.
    Specification 4.2, [bid(price, qty, account)]: reserves [price * qty]
    of the quoted asset; in immediate-match mode crosses against resting
    asks before resting the remainder.  A quantity below the dust
    threshold, and a reservation that fails, produce no order and no
    change (section 7). *)
Definition bid `{HavvenModel} (m : Market) (px qty : Dec) (account : nat)
  : M World (option nat) :=
  p <- agent_ref account ;;
  bk <- gets (book_of m) ;;
  if decide (qty < dust)%Qc then ret None
  else
    match reserve (quoted bk) (px * qty) p with
    | None => ret None
    | Some p' =>
        modify (update_agent account (fun _ => p')) ;;;
        modify (update_book m take_id) ;;;
        modify (cross_and_rest m (mkLimitOrder (next_id bk) account px qty)) ;;;
        ret (Some (next_id bk))
    end.

(** Modelled from the spec: what becomes of a market buy (4.2).  It walks
    the asks with no price limit, bounded by the buyer's available quoted
    balance; when the asks run out first, the remainder is posted at the
    last price touched, its cost reserved (and is dropped when the
    reservation fails). *)
Definition walk_and_post `{HavvenModel} (m : Market) (id account : nat) (qty : Dec)
    (w : World) : World :=
  let bk := book_of m w in
  let '(remaining, last, asks_left, w1) :=
    walk_asks m account None qty None (asks bk) w in
  let w2 := update_book m (set_asks asks_left) w1 in
  match asks_left, last with
  | [], Some px =>
      if decide (remaining < dust)%Qc then w2
      else
        match agents w2 !! account ≫= reserve (quoted bk) (px * remaining) with
        | Some p' =>
            update_book m (fun b =>
                set_bids (insert_bid (mkLimitOrder id account px remaining) (bids b)) b)
              (update_agent account (fun _ => p') w2)
        | None => w2
        end
  | _, _ => w2
  end.

(** Modelled from the spec: [OrderBook.buy] is not among the sources.
    Specification 4.2, [buy(qty, account)]: walks the opposite queue
    consuming the best available price levels up to [qty] (bounded by
    the caller's available reserve); if liquidity is exhausted before
    [qty] is filled, the unfilled remainder is posted as a new resting
    order at the last touched price; below the dust threshold it returns
    no order and changes nothing.  With no ask to price against the
    specification (section 9) asks for an explicit failure: no order. *)
Definition buy `{HavvenModel} (m : Market) (qty : Dec) (account : nat)
  : M World (option nat) :=
  agent_ref account ;;;
  bk <- gets (book_of m) ;;
  if decide (qty < dust)%Qc then ret None
  else
    match asks bk with
    | [] => ret None
    | _ :: _ =>
        modify (update_book m take_id) ;;;
        modify (walk_and_post m (next_id bk) account qty) ;;;
        ret (Some (next_id bk))
    end.

(** Modelled from the spec: [OrderBook.lowest_ask_price] is not among
    the sources; it is the price at the head of the ask queue.  On an
    empty queue the specification (section 9) leaves the price undefined
    and asks for an explicit failure. *)
Definition lowest_ask_price (m : Market) : M World Dec :=
  bk <- gets (book_of m) ;;
  match asks bk with
  | a :: _ => ret (price a)
  | [] => raise EmptyBook
  end.

(** Modelled from the spec: [OrderBook.lowest_ask_quantity] is not among
    the sources and the specification only names price levels; it is the
    quantity resting at the best ask price, zero on an empty queue. *)
Definition lowest_ask_quantity (m : Market) : M World Dec :=
  bk <- gets (book_of m) ;;
  match asks bk with
  | a :: _ =>
      ret (foldr (fun o acc => if decide (price o = price a) then quantity o + acc else acc)
                 0 (asks bk))
  | [] => ret 0
  end.

(** Modelled from the spec: an order is found in a queue, and removed
    from it, by its sequence number. *)
Definition has_id (id : nat) (o : LimitOrder) : bool := Nat.eqb (order_id o) id.

Definition without (id : nat) (queue : list LimitOrder) : list LimitOrder :=
  List.filter (fun o => negb (has_id id o)) queue.

(** Modelled from the spec: [LimitOrder.cancel] is not among the
    sources.  Specification 4.2, [cancel(order)]: fails with
    OrderNotFound if already inactive; otherwise removes the order from
    its queue and releases its reservation. *)
Definition cancel (m : Market) (id : nat) : M World bool :=
  bk <- gets (book_of m) ;;
  match List.find (has_id id) (bids bk), List.find (has_id id) (asks bk) with
  | Some o, _ =>
      modify (update_book m (set_bids (without id (bids bk)))) ;;;
      modify (update_agent (owner o) (release (quoted bk) (price o * quantity o))) ;;;
      ret true
  | None, Some o =>
      modify (update_book m (set_asks (without id (asks bk)))) ;;;
      modify (update_agent (owner o) (release (base bk) (quantity o))) ;;;
      ret true
  | None, None => ret false
  end.

(** Modelled from the spec: the order book of the specification behind
    the interface the agent code is written against. *)
#[export] Instance ops `{HavvenModel} : OrderBookOps := {
  lowest_ask_price := Book.lowest_ask_price;
  lowest_ask_quantity := Book.lowest_ask_quantity;
  buy := Book.buy;
  bid := Book.bid;
  cancel := Book.cancel
}.

End Book.

(** ** [simulation/model.py]

    This file is of an older vintage than [marketplayer.py]: the token is
    called curits here, and an agent has a [curits] attribute. *)

Module Model.

(** The numbers curits are counted in.  [model.py] annotates them
    [float]; its own calls pass whole numbers ([int]) and those of
    [agentmanager.py] pass [Decimal]s.  What [endow_curits] does with
    them is compare, select, add and subtract, in the arithmetic of their
    type: [exact x] is the number a value [x] of the type stands for, and
    [rounded q] is the value of the type that an operation with the exact
    result [q] returns.  A result that is a value of the type is returned
    as it is, rounding keeps the order, and zero is a value of the type.
    The values of a type are the finite numbers its arithmetic can
    return: for [Decimal], those of at most the 28 digits of the
    context. *)
Class Number (N : Type) : Type := {
  exact : N -> Dec;
  rounded : Dec -> N;
  rounded_exact : forall x : N, rounded (exact x) = x;
  rounded_mono : forall q q' : Dec, q <= q' -> exact (rounded q) <= exact (rounded q');
  rounded_0 : exact (rounded 0) = 0
}.

(** [x + y] and [x - y] in the arithmetic of the type. *)
Definition num_add {N : Type} `{Number N} (x y : N) : N := rounded (exact x + exact y).

Definition num_sub {N : Type} `{Number N} (x y : N) : N := rounded (exact x - exact y).

(** Python's builtin [min(a, b)]: the first argument unless the second is
    strictly smaller. *)
Definition num_min {N : Type} `{Number N} (a b : N) : N :=
  if decide (exact b < exact a)%Qc then b else a.

(** The one attribute of an agent that [model.py] touches. *)
Module Agent.
Record t (N : Type) : Type := mk { curits : N }.
Arguments mk {N}.
Arguments curits {N}.
End Agent.

(** [HavvenSettings(num_agents, max_fiat, utilisation_ratio_max,
    match_on_order)] with its pool of curits still to be endowed; the
    class is in [config], not among the sources, and is taken as the
    record of the attributes [model.py] uses. *)
Record HavvenSettings (N : Type) : Type := mkHavvenSettings {
  num_agents : Z;
  max_fiat : Dec;
  utilisation_ratio_max : Dec;
  match_on_order : bool;
  curits : N
}.
Arguments mkHavvenSettings {N}.
Arguments num_agents {N}.
Arguments max_fiat {N}.
Arguments utilisation_ratio_max {N}.
Arguments match_on_order {N}.
Arguments curits {N}.

Definition set_curits {N : Type} (v : N) (s : HavvenSettings N) : HavvenSettings N :=
  mkHavvenSettings (num_agents s) (max_fiat s) (utilisation_ratio_max s) (match_on_order s) v.

(** The order books held by [self.trade_manager]. *)
Inductive BookName : Type := cur_nom_market | cur_fiat_market | nom_fiat_market.

(** The calls [Havven.step] makes on its collaborators:
    [self.schedule.step()], [<book>.match()],
    [self.fee_manager.distribute_fees()] and
    [self.datacollector.collect(self)]. *)
Inductive Call : Type :=
  | schedule_step
  | market_match (b : BookName)
  | distribute_fees
  | collect.

#[export] Instance BookName_eq_dec : EqDecision BookName.
Proof. solve_decision. Defined.

#[export] Instance Call_eq_dec : EqDecision Call.
Proof. solve_decision. Defined.

(** The model: its step counter, its settings, the arena of agents, the
    state [env] of the collaborators ([schedule], [trade_manager],
    [fee_manager], [datacollector]), and the calls made on them so far,
    oldest first (the log is not part of the program; it records the
    order of the calls). *)
Record Havven (N Env : Type) : Type := mkHavven {
  time : Z;
  settings : HavvenSettings N;
  agents : list (Agent.t N);
  env : Env;
  log : list Call
}.
Arguments mkHavven {N Env}.
Arguments time {N Env}.
Arguments settings {N Env}.
Arguments agents {N Env}.
Arguments env {N Env}.
Arguments log {N Env}.

(** What [model.py] is given from outside: what each collaborator call
    does to the agents and to the collaborators' own state (it leaves the
    step counter and the settings alone), the constant
    [FeeConfig.fee_period] of [config], and the fee manager's conversions
    to fiat. *)
Class Collaborators (N Env : Type) : Type := {
  perform : Call -> list (Agent.t N) * Env -> list (Agent.t N) * Env;
  fee_period : Z;
  cur_to_fiat : Dec -> Dec;
  nom_to_fiat : Dec -> Dec
}.

Section Havven.
Context {N Env : Type} `{Collaborators N Env} `{Number N}.

Definition set_settings (s : HavvenSettings N) (h : Havven N Env) : Havven N Env :=
  mkHavven (time h) s (agents h) (env h) (log h).

Definition set_agents (l : list (Agent.t N)) (h : Havven N Env) : Havven N Env :=
  mkHavven (time h) (settings h) l (env h) (log h).

Definition set_time (t : Z) (h : Havven N Env) : Havven N Env :=
  mkHavven t (settings h) (agents h) (env h) (log h).

(** A call on a collaborator: its effect, and its entry in the log. *)
Definition call (c : Call) : M (Havven N Env) unit :=
  modify (fun h =>
    let '(l, e) := perform c (agents h, env h) in
    mkHavven (time h) (settings h) l e (log h ++ [c])).

(** Python's [a % b] on integers: floored, and a zero divisor raises. *)
Definition py_mod (a b : Z) : Exn + Z :=
  if decide (b = 0)%Z then inl ZeroDivisionError else inr (a mod b)%Z.

Definition fiat_value (curits nomins fiat : Dec) : Dec :=
  cur_to_fiat curits + nom_to_fiat nomins + fiat.

(** Dereference an agent. *)
Definition agent_ref (i : nat) : M (Havven N Env) (Agent.t N) :=
  fun h => match agents h !! i with
           | Some a => (inr a, h)
           | None => (inl DanglingReference, h)
           end.

Definition endow_curits (agent : nat) (curits : N) : M (Havven N Env) unit :=
  if decide (0 < exact curits)%Qc then
    pool <- gets (fun h => Model.curits (settings h)) ;;
    let value := num_min pool curits in
    agent_ref agent ;;;
    modify (fun h =>
      set_agents (alter (fun a => Agent.mk (num_add (Agent.curits a) value)) agent
                    (agents h)) h) ;;;
    modify (fun h =>
      set_settings (set_curits (num_sub (Model.curits (settings h)) value) (settings h)) h)
  else ret tt.

Definition step : M (Havven N Env) unit :=
  call schedule_step ;;;
  on_order <- gets (fun h => match_on_order (settings h)) ;;
  (if negb on_order then
     call (market_match cur_nom_market) ;;;
     call (market_match cur_fiat_market) ;;;
     call (market_match nom_fiat_market)
   else ret tt) ;;;
  t <- gets time ;;
  r <- lift (py_mod t fee_period) ;;
  (if decide (r = 0)%Z then call distribute_fees else ret tt) ;;;
  call collect ;;;
  modify (fun h => set_time (time h + 1)%Z h).


(** The curits in existence: the pool still to be endowed plus every
    agent's holding, summed exactly. *)
Definition total_curits (h : Havven N Env) : Dec :=
  exact (Model.curits (settings h))
  + foldr (fun a acc => exact (Agent.curits a) + acc) 0 (agents h).

End Havven.


End Model.

(** ** Concrete instances *)

Module Scenario.

(** Collaborators that leave everything as it is, a fee period of three
    steps, curits worth ten fiat each and nomins at par. *)
Definition idle {N : Type} : Model.Collaborators N unit := {|
  Model.perform := fun _ s => s;
  Model.fee_period := 3;
  Model.cur_to_fiat := fun c => c * dec 10 1;
  Model.nom_to_fiat := fun n => n
|}.

(** Eight decimal places, and the valuation of [model.py]. *)
Definition model8 : HavvenModel := {|
  currency_precision := 8;
  fiat_value := Model.fiat_value (H := idle (N := Z))
|}.

(** The scenario of the specification (section 8): a price of two nomins
    per havven and a utilisation ratio cap of 0.8. *)
Definition oracle : MintOracle := {|
  havven_nomin_price := dec 2 1;
  utilisation_ratio_max := dec 8 10
|}.


(** An agent with 8 havvens, all of them offered for sale. *)
Definition seller : MarketPlayer :=
  mkMarketPlayer 0 (dec 8 1) 0 0 0 0 (dec 8 1) 0 (dec 80 1).

(** An agent with 1000 fiat. *)
Definition buyer : MarketPlayer :=
  mkMarketPlayer (dec 1000 1) 0 0 0 0 0 0 0 (dec 1000 1).

(** An agent with 100 escrowed havvens and nothing issued. *)
Definition escrower : MarketPlayer :=
  mkMarketPlayer 0 0 0 (dec 100 1) 0 0 0 0 (dec 1000 1).

Definition empty_book (B Q : Currency) : OrderBook :=
  mkOrderBook B Q [] [] (dec 1 200) true 0.

(** The havven-fiat book with two resting asks of agent 0: 5 havvens at
    10 fiat and 3 havvens at 11 fiat. *)
Definition two_levels : OrderBook :=
  mkOrderBook Havvens Fiat []
    [mkLimitOrder 0 0 (dec 10 1) (dec 5 1); mkLimitOrder 1 0 (dec 11 1) (dec 3 1)]
    (dec 1 200) true 2.

(** Agent 0 sells on two price levels, agent 1 holds the fiat, agent 2
    has escrowed havvens. *)
Definition market : World :=
  mkWorld [seller; buyer; escrower] two_levels
    (empty_book Nomins Fiat) (empty_book Havvens Nomins) [].

(** The havven-fiat book with two resting asks of agent 0 at one price:
    5 havvens, then 3 havvens, at 10 fiat. *)
Definition one_level : OrderBook :=
  mkOrderBook Havvens Fiat []
    [mkLimitOrder 0 0 (dec 10 1) (dec 5 1); mkLimitOrder 1 0 (dec 10 1) (dec 3 1)]
    (dec 1 200) true 2.

Definition market_one_level : World :=
  mkWorld [seller; buyer; escrower] one_level
    (empty_book Nomins Fiat) (empty_book Havvens Nomins) [].

(** A model at step 6 in batch-matching mode with a pool of 100 curits
    and two agents holding 1 and 2 curits, in whole numbers. *)
Definition batch_model : Model.Havven Z unit :=
  Model.mkHavven 6 (Model.mkHavvenSettings 2 (dec 1000 1) 1 false 100%Z)
    [Model.Agent.mk 1%Z; Model.Agent.mk 2%Z] tt [].

End Scenario.

(** ** Notions the properties are stated with *)


#[export] Instance Currency_eq_dec : EqDecision Currency.
Proof. solve_decision. Defined.

#[export] Instance MarketPlayer_eq_dec : EqDecision MarketPlayer.
Proof. solve_decision. Defined.

#[export] Instance LimitOrder_eq_dec : EqDecision LimitOrder.
Proof. solve_decision. Defined.

(** The method [transfer_fiat_to], [transfer_havvens_to] or
    [transfer_nomins_to], by the asset it moves. *)
Definition transfer_to `{HavvenModel} (X : Currency) : nat -> nat -> Dec -> M World bool :=
  match X with
  | Fiat => transfer_fiat_to
  | Havvens => transfer_havvens_to
  | Nomins => transfer_nomins_to
  end.

(** ** Proof automation *)

(** Linear arithmetic over the decimals, by way of [Q]. *)
Ltac qc_lra :=
  cbv [Qcle Qclt Qcplus Qcminus Qcopp Q2Qc this] in *;
  repeat match goal with
         | H : context [Qred _] |- _ => rewrite Qred_correct in H
         | |- context [Qred _] => rewrite Qred_correct
         end;
  lra.

(** ** More of [agents/marketplayer.py] *)

(** [MarketPlayer._fraction(qty, divisor, minimum)]: a fraction of the
    given quantity, with a minimum.  The first argument of [max] is
    evaluated first, so a zero divisor raises before anything else. *)
Definition _fraction `{HavvenModel} (qty divisor minimum : Dec) : Exn + Dec :=
  match dec_div qty divisor with
  | inr q => inr (dec_max (round_decimal q) (dec_min minimum qty))
  | inl e => inl e
  end.

Definition set_initial_wealth (v : Dec) (p : MarketPlayer) : MarketPlayer :=
  mkMarketPlayer (fiat p) (havvens p) (nomins p) (escrowed_havvens p) (issued_nomins p)
    (unavailable_fiat p) (unavailable_havvens p) (unavailable_nomins p) v.

(** [MarketPlayer.reset_initial_wealth]: the old initial wealth, and the
    agent with its initial wealth set to its current wealth. *)
Definition reset_initial_wealth `{HavvenModel} (self : MarketPlayer) : Dec * MarketPlayer :=
  let old := initial_wealth self in
  (old, set_initial_wealth (wealth self) self).

(** [MarketPlayer.round_values]: rounding applied to the nomin, fiat and
    havven balances. *)
Definition round_values `{HavvenModel} (self : MarketPlayer) : MarketPlayer :=
  set_balance Havvens (round_decimal (havvens self))
    (set_balance Fiat (round_decimal (fiat self))
       (set_balance Nomins (round_decimal (nomins self)) self)).

(** What [calculate_burn_rate] reads through [core.stats], which is not
    among the sources: [st.nomin_supply(self.model)], a reading of the
    current state. *)
Class Stats : Type := {
  nomin_supply : World -> Dec
}.

(** [MarketPlayer.calculate_burn_rate]. *)
Definition calculate_burn_rate `{Stats} (self : nat) : M World Dec :=
  p <- agent_ref self ;;
  let target_supply := dec 10 1 in
  current_supply <- gets nomin_supply ;;
  if decide (current_supply = 0) then ret 0
  else
    let excess_supply := dec_max (current_supply - target_supply) 0 in
    let burn_percentage := dec 1 100 in
    let agent_excess_nomins := dec_max (nomins p - issued_nomins p) 0 in
    share <- lift (dec_div agent_excess_nomins current_supply) ;;
    ret (burn_percentage * share * excess_supply).

(** [MarketPlayer.step]: burn the calculated amount of nomins when it is
    positive.  The [print] of the amount is output only and is left
    out. *)
Definition step `{HavvenModel} `{Stats} (self : nat) : M World unit :=
  nomins_to_burn <- calculate_burn_rate self ;;
  if decide (0 < nomins_to_burn)%Qc then burn_nomins self nomins_to_burn ;;; ret tt
  else ret tt.

(** ** More of [simulation/model.py] and its callers *)

(** A sequence of [endow_curits] calls, as [Havven.__init__] and
    [AgentManager.__init__] make one after another, each with the agent
    it endows and the amount it asks for. *)
Fixpoint endow_all {N Env : Type} `{Model.Number N} (requests : list (nat * N))
  : M (Model.Havven N Env) unit :=
  match requests with
  | [] => ret tt
  | (agent, curits) :: rest => Model.endow_curits agent curits ;;; endow_all rest
  end.

(** What a sequence of requests asks for in all, and for one agent: the
    positive amounts, summed exactly. *)
Definition asked {N : Type} `{Model.Number N} (requests : list (nat * N)) : Dec :=
  foldr (fun r acc => dec_max 0 (Model.exact r.2) + acc) 0 requests.

Definition asked_for {N : Type} `{Model.Number N} (agent : nat) (requests : list (nat * N))
  : Dec :=
  asked (filter (fun r => r.1 = agent) requests).

(** A number type whose additions and subtractions are exact, as those
    of Python's [int] are. *)
Definition exact_arithmetic (N : Type) `{Model.Number N} : Prop :=
  forall x y : N,
    Model.exact (Model.num_add x y) = Model.exact x + Model.exact y /\
    Model.exact (Model.num_sub x y) = Model.exact x - Model.exact y.

(** The collaborators' side of the model after some calls, performed in
    order. *)
Definition performed {N Env : Type} `{Model.Collaborators N Env} (calls : list Model.Call)
    (s : list (Model.Agent.t N) * Env) : list (Model.Agent.t N) * Env :=
  foldl (fun s c => Model.perform c s) s calls.

(** The calls one [Havven.step] makes on its collaborators, in order,
    read off its body: the matches only in batch mode, the fee
    distribution only when the fee period divides the step counter. *)
Definition step_calls_of {N Env : Type} `{Model.Collaborators N Env} (h : Model.Havven N Env)
  : list Model.Call :=
  [Model.schedule_step] ++
  (if Model.match_on_order (Model.settings h) then []
   else [Model.market_match Model.cur_nom_market; Model.market_match Model.cur_fiat_market;
         Model.market_match Model.nom_fiat_market]) ++
  (if decide (Model.time h mod Model.fee_period = 0)%Z then [Model.distribute_fees] else []) ++
  [Model.collect].

(** The [value] that one [endow_curits] call takes from the pool for the
    agent: [min(self.settings.curits, curits)] for a positive request,
    nothing otherwise. *)
Definition granted {N Env : Type} `{Model.Number N} (h : Model.Havven N Env) (curits : N)
  : Dec :=
  if decide (0 < Model.exact curits)%Qc
  then dec_min (Model.exact (Model.curits (Model.settings h))) (Model.exact curits)
  else 0.

(** ** More concrete instances *)

Module Cases.

(** The nomin supply as the sum of the agents' nomin balances. *)
Definition supply_stats : Stats := {| nomin_supply := supply Nomins |}.

(** An agent holding 30 nomins of which it issued 10. *)
Definition holder : MarketPlayer :=
  mkMarketPlayer 0 0 (dec 30 1) (dec 100 1) (dec 10 1) 0 0 0 (dec 1000 1).

(** An agent holding the 10 nomins it issued. *)
Definition issuer : MarketPlayer :=
  mkMarketPlayer 0 0 (dec 10 1) (dec 100 1) (dec 10 1) 0 0 0 (dec 1000 1).

(** Forty nomins in all, thirty above the target supply. *)
Definition flush : World :=
  mkWorld [holder; issuer] (Scenario.empty_book Havvens Fiat)
    (Scenario.empty_book Nomins Fiat) (Scenario.empty_book Havvens Nomins) [].

(** Ten nomins in all, the target supply. *)
Definition on_target : World :=
  mkWorld [issuer] (Scenario.empty_book Havvens Fiat)
    (Scenario.empty_book Nomins Fiat) (Scenario.empty_book Havvens Nomins) [].

(** The havven-fiat book with one ask of agent 0: 5 havvens for
    nothing. *)
Definition giveaway : OrderBook :=
  mkOrderBook Havvens Fiat [] [mkLimitOrder 0 0 0 (dec 5 1)] (dec 1 200) true 1.

Definition market_giveaway : World :=
  mkWorld [Scenario.seller; Scenario.buyer; Scenario.escrower] giveaway
    (Scenario.empty_book Nomins Fiat) (Scenario.empty_book Havvens Nomins) [].

(** A model as constructed, at step 1, matching orders as they are
    placed, with a pool of 100 curits and two agents holding 1 and 2
    curits, in whole numbers. *)
Definition fresh_model : Model.Havven Z unit :=
  Model.mkHavven 1 (Model.mkHavvenSettings 2 (dec 1000 1) 1 true 100%Z)
    [Model.Agent.mk 1%Z; Model.Agent.mk 2%Z] tt [].





(** Collaborators that leave everything as it is, with a fee period of
    zero. *)
Definition no_period {N : Type} : Model.Collaborators N unit := {|
  Model.perform := fun _ s => s;
  Model.fee_period := 0;
  Model.cur_to_fiat := fun c => c * dec 10 1;
  Model.nom_to_fiat := fun n => n
|}.

End Cases.

(** * Properties *)

(** ** Rounding *)


Lemma round_half_even_inject_Z (k : Z) : round_half_even (inject_Z k) = k.
Proof.
  unfold round_half_even. rewrite Qfloor_Z.
  destruct (Qcompare_spec (inject_Z k - inject_Z k) (1 # 2)) as [E|E|E];
    [lra | reflexivity | lra].
Qed.

Lemma round_half_even_proper : Proper (Qeq ==> eq) round_half_even.
Proof.
  intros x y E. unfold round_half_even.
  rewrite (Qfloor_comp _ _ E). now rewrite E.
Qed.

Lemma scale_pos p : (0 < scale p)%Z.
Proof. unfold scale. apply Z.pow_pos_nonneg; lia. Qed.

Lemma scale_to_pos p : Z.pos (Z.to_pos (scale p)) = scale p.
Proof. apply Z2Pos.id, scale_pos. Qed.

Lemma inject_scale_pos p : (0 < inject_Z (scale p))%Q.
Proof. change 0%Q with (inject_Z 0). rewrite <- Zlt_Qlt. apply scale_pos. Qed.

Lemma frac_scale (k : Z) p :
  (k # Z.to_pos (scale p) == inject_Z k / inject_Z (scale p))%Q.
Proof. rewrite Qmake_Qdiv. now rewrite scale_to_pos. Qed.

Lemma this_round_to p x :
  (this (round_to p x) ==
   inject_Z (round_half_even (this x * inject_Z (scale p))) / inject_Z (scale p))%Q.
Proof. unfold round_to. cbn [this Q2Qc]. rewrite Qred_correct. apply frac_scale. Qed.


(** Rounding zero gives zero. *)
Lemma round_to_0 p : round_to p 0 = 0.
Proof.
  apply Qc_is_canon. rewrite this_round_to.
  assert (round_half_even (this 0 * inject_Z (scale p)) = 0%Z) as ->.
  { transitivity (round_half_even (inject_Z 0)); [|apply round_half_even_inject_Z].
    apply round_half_even_proper.
    change (this 0) with 0%Q. change (inject_Z 0) with 0%Q. ring. }
  change (inject_Z 0) with 0%Q. change (this 0) with 0%Q.
  unfold Qdiv. ring.
Qed.


(** Rounding leaves a quantity alone exactly when it is on the grid. *)
Lemma round_to_fixed_iff p x : round_to p x = x <-> on_grid p x.
Proof.
  split.
  - intros E. exists (round_half_even (this x * inject_Z (scale p))).
    now rewrite <- E at 1.
  - intros [k ->]. apply Qc_is_canon. rewrite this_round_to. cbn [this Q2Qc].
    pose proof (inject_scale_pos p) as Hs.
    assert (round_half_even (Qred (k # Z.to_pos (scale p)) * inject_Z (scale p)) = k) as ->.
    { rewrite <- (round_half_even_inject_Z k) at 2. apply round_half_even_proper.
      rewrite Qred_correct, frac_scale. field. lra. }
    rewrite Qred_correct. symmetry. apply frac_scale.
Qed.

Lemma on_grid_minus p x y : on_grid p x -> on_grid p y -> on_grid p (x - y).
Proof.
  intros [k ->] [l ->]. exists (k - l)%Z. apply Qc_is_canon.
  unfold Qcminus, Qcplus, Qcopp. cbn [this Q2Qc]. rewrite !Qred_correct.
  rewrite !frac_scale. unfold Z.sub. rewrite inject_Z_plus, inject_Z_opp.
  pose proof (inject_scale_pos p). field. lra.
Qed.


Lemma round_to_on_grid p x : on_grid p (round_to p x).
Proof. eexists. reflexivity. Qed.

(** One less a fifth of a unit of the last place is not on the grid. *)
Lemma fifth_off_grid p : ~ on_grid p (1 - Q2Qc (1 # (5 * Z.to_pos (scale p)))).
Proof.
  intros [k E]. apply (f_equal this) in E.
  assert (1 - (1 # (5 * Z.to_pos (scale p))) == k # Z.to_pos (scale p))%Q as E'.
  { rewrite <- (Qred_correct (k # _)).
    change (Qred (k # Z.to_pos (scale p))) with (this (Q2Qc (k # Z.to_pos (scale p)))).
    rewrite <- E. cbv [Qcminus Qcplus Qcopp Q2Qc this]. rewrite !Qred_correct.
    reflexivity. }
  clear E. unfold Qeq in E'. cbn in E'.
  set (T := Z.to_pos (scale p)) in *.
  rewrite !Pos2Z.inj_mul in E'.
  assert ((5 * Z.pos T - 1) * Z.pos T = (5 * k) * Z.pos T)%Z as E'' by lia.
  apply Z.mul_cancel_r in E''; lia.
Qed.

(** ** Order and rounding *)

Lemma round_half_even_near_floor (x : Q) :
  (Qfloor x <= round_half_even x <= Qfloor x + 1)%Z.
Proof.
  unfold round_half_even.
  destruct (Qcompare (x - inject_Z (Qfloor x)) (1 # 2)); [destruct (Z.even _)| |]; lia.
Qed.

(** Rounding keeps the order. *)
Lemma round_half_even_mono (x y : Q) :
  (x <= y)%Q -> (round_half_even x <= round_half_even y)%Z.
Proof.
  intros Hxy. pose proof (Qfloor_resp_le _ _ Hxy) as Hf.
  destruct (decide (Qfloor x = Qfloor y)) as [E|E].
  - unfold round_half_even. rewrite <- E.
    destruct (Qcompare_spec (x - inject_Z (Qfloor x)) (1 # 2)) as [Ex|Ex|Ex],
             (Qcompare_spec (y - inject_Z (Qfloor x)) (1 # 2)) as [Ey|Ey|Ey];
      try destruct (Z.even (Qfloor x)); try lia; lra.
  - pose proof (round_half_even_near_floor x). pose proof (round_half_even_near_floor y).
    lia.
Qed.

Lemma round_to_mono p (x y : Dec) : x <= y -> round_to p x <= round_to p y.
Proof.
  intros Hxy. unfold Qcle in *. rewrite !this_round_to.
  pose proof (inject_scale_pos p) as Hs.
  apply Qmult_le_compat_r; [|apply Qlt_le_weak, Qinv_lt_0_compat, Hs].
  rewrite <- Zle_Qle. apply round_half_even_mono.
  apply Qmult_le_compat_r; [exact Hxy|lra].
Qed.

Lemma round_to_nonneg p (x : Dec) : 0 <= x -> 0 <= round_to p x.
Proof. intros Hx. rewrite <- (round_to_0 p). now apply round_to_mono. Qed.

Lemma round_to_nonpos p (x : Dec) : x <= 0 -> round_to p x <= 0.
Proof. intros Hx. rewrite <- (round_to_0 p). now apply round_to_mono. Qed.

Lemma round_to_idem p (x : Dec) : round_to p (round_to p x) = round_to p x.
Proof. apply round_to_fixed_iff, round_to_on_grid. Qed.

Lemma dec_max_cases (a b : Dec) :
  (dec_max a b = a /\ b <= a) \/ (dec_max a b = b /\ a < b).
Proof.
  unfold dec_max. destruct (decide (a < b)); [right; done|left].
  split; [done|]. now apply Qcnot_lt_le.
Qed.

Lemma dec_max_0_nonneg (a : Dec) : 0 <= dec_max a 0.
Proof. destruct (dec_max_cases a 0) as [[-> H]|[-> H]]; [exact H|apply Qcle_refl]. Qed.

Lemma Qcpos_nonzero (d : Dec) : 0 < d -> d <> 0.
Proof. intros Hd E. apply (Qclt_not_eq _ _ Hd). now rewrite E. Qed.

Lemma Qcdiv_mult_cancel (a d : Dec) : d <> 0 -> a / d * d = a.
Proof. intros Hd. rewrite Qcmult_comm. now apply Qcmult_div_r. Qed.

Lemma Qcdiv_le_iff (a b d : Dec) : 0 < d -> a / d <= b <-> a <= b * d.
Proof.
  intros Hd. rewrite (Qcmult_le_mono_pos_r _ _ d Hd).
  rewrite Qcdiv_mult_cancel; [done|]. now apply Qcpos_nonzero.
Qed.

Lemma Qcdiv_ge_iff (a b d : Dec) : 0 < d -> b <= a / d <-> b * d <= a.
Proof.
  intros Hd. rewrite (Qcmult_le_mono_pos_r _ _ d Hd).
  rewrite Qcdiv_mult_cancel; [done|]. now apply Qcpos_nonzero.
Qed.

Lemma Qcmult_nonneg (a b : Dec) : 0 <= a -> 0 <= b -> 0 <= a * b.
Proof. intros Ha Hb. rewrite <- (Qcmult_0_r a). now apply Qcmult_le_mono_nonneg_l. Qed.

(** ** Rounding to significant digits *)

Section RoundSig.
Variables (radix prec : Z).
Hypothesis radix_ge_2 : (2 <= radix)%Z.
Hypothesis prec_ge_1 : (1 <= prec)%Z.

Local Open Scope Q_scope.

Local Abbreviation b := (inject_Z radix) (only parsing).

Lemma b_gt_1 : 1 < b.
Proof. change 1 with (inject_Z 1). rewrite <- Zlt_Qlt. lia. Qed.

Lemma b_pos : 0 < b.
Proof. pose proof b_gt_1. lra. Qed.

Lemma b_nonzero : ~ b == 0.
Proof. pose proof b_pos. lra. Qed.

Lemma bpow_pos (e : Z) : 0 < b ^ e.
Proof. apply Qpower_0_lt, b_pos. Qed.

Lemma bpow_succ (e : Z) : b ^ (e + 1) == b ^ e * b.
Proof. rewrite Qpower_plus by apply b_nonzero. now rewrite Qpower_1_r. Qed.

Lemma bpow_pred (e : Z) : b ^ (e - 1) * b == b ^ e.
Proof. rewrite <- bpow_succ. now replace (e - 1 + 1)%Z with e by lia. Qed.

Lemma mag_up_spec (fuel : nat) (x : Q) :
  1 <= x -> x < b ^ Z.of_nat fuel ->
  b ^ mag_up radix fuel x <= x /\ x < b ^ (mag_up radix fuel x + 1).
Proof.
  revert x. induction fuel as [|f IH]; intros x H1 Hf.
  - change (Z.of_nat 0) with 0%Z in Hf. rewrite Qpower_0_r in Hf. lra.
  - cbn [mag_up]. pose proof b_pos as Hb.
    rewrite Nat2Z.inj_succ, <- Z.add_1_r, bpow_succ in Hf.
    assert (forall e, b ^ e <= x / b /\ x / b < b ^ (e + 1) ->
                      b ^ (e + 1) <= x /\ x < b ^ (e + 1 + 1)) as Hstep.
    { intros e [Hlo Hhi]. rewrite !bpow_succ in *. split.
      - apply (Qmult_le_compat_r _ _ b) in Hlo; [|lra].
        assert (x / b * b == x) as Ex by (field; lra). now rewrite Ex in Hlo.
      - apply (Qmult_lt_compat_r _ _ b) in Hhi; [|lra].
        assert (x / b * b == x) as Ex by (field; lra). now rewrite Ex in Hhi. }
    assert (b <= x -> 1 <= x / b /\ x / b < b ^ Z.of_nat f) as Hdiv.
    { intros Hbx. split.
      - apply Qle_shift_div_l; [exact Hb|lra].
      - apply Qlt_shift_div_r; [exact Hb|exact Hf]. }
    destruct (Qcompare_spec x b) as [E|E|E].
    + apply Hstep, IH; apply Hdiv; lra.
    + rewrite Qpower_0_r, Z.add_0_l, Qpower_1_r. split; [exact H1|exact E].
    + apply Hstep, IH; apply Hdiv; lra.
Qed.

Lemma mag_down_spec (fuel : nat) (x : Q) :
  0 < x -> x < 1 -> b ^ (- Z.of_nat fuel) <= x ->
  b ^ mag_down radix fuel x <= x /\ x < b ^ (mag_down radix fuel x + 1).
Proof.
  revert x. induction fuel as [|f IH]; intros x H0 H1 Hf.
  - change (- Z.of_nat 0)%Z with 0%Z in Hf. rewrite Qpower_0_r in Hf. lra.
  - cbn [mag_down]. pose proof b_pos as Hb.
    assert (b ^ (- Z.of_nat f) <= x * b) as Hf'.
    { replace (- Z.of_nat (S f))%Z with (- Z.of_nat f - 1)%Z in Hf by lia.
      rewrite <- (bpow_pred (- Z.of_nat f)).
      apply Qmult_le_compat_r; [exact Hf|lra]. }
    destruct (Qcompare_spec (x * b) 1) as [E|E|E].
    + change (-1 + 1)%Z with 0%Z. rewrite Qpower_0_r. split; [|exact H1].
      rewrite <- (Qmult_le_r _ _ b) by exact Hb.
      rewrite (bpow_pred 0), Qpower_0_r. lra.
    + destruct (IH (x * b)) as [Hlo Hhi]; [nra|exact E|exact Hf'|].
      replace (mag_down radix f (x * b) - 1 + 1)%Z with (mag_down radix f (x * b)) by lia.
      split.
      * rewrite <- (Qmult_le_r _ _ b) by exact Hb. now rewrite bpow_pred.
      * rewrite bpow_succ in Hhi. now rewrite <- (Qmult_lt_r _ _ b) by exact Hb.
    + change (-1 + 1)%Z with 0%Z. rewrite Qpower_0_r. split; [|exact H1].
      rewrite <- (Qmult_le_r _ _ b) by exact Hb.
      rewrite (bpow_pred 0), Qpower_0_r. lra.
Qed.


Lemma pos_lt_bpow (n : positive) : inject_Z (Z.pos n) < b ^ Z.of_nat (Pos.size_nat n).
Proof.
  assert (Z.pos n < 2 ^ Z.of_nat (Pos.size_nat n))%Z as H2.
  { induction n as [n IH|n IH|]; cbn [Pos.size_nat];
      rewrite ?Nat2Z.inj_succ, ?Z.pow_succ_r by lia; lia. }
  assert (2 ^ Z.of_nat (Pos.size_nat n) <= radix ^ Z.of_nat (Pos.size_nat n))%Z as Hr
    by (apply Z.pow_le_mono_l; lia).
  rewrite <- Zpower_Qpower by lia. rewrite <- Zlt_Qlt. lia.
Qed.

Lemma Qnum_pos (x : Q) : 0 < x -> (0 < Qnum x)%Z.
Proof. destruct x as [n d]. unfold Qlt. cbn. lia. Qed.

Lemma Q_le_num (x : Q) : 0 < x -> x <= inject_Z (Qnum x).
Proof.
  intros Hx. pose proof (Qnum_pos x Hx). destruct x as [n d].
  unfold Qle. cbn in *. nia.
Qed.

Lemma Q_ge_inv_den (x : Q) : 0 < x -> / inject_Z (Z.pos (Qden x)) <= x.
Proof.
  intros Hx. pose proof (Qnum_pos x Hx). destruct x as [n d].
  unfold Qle, Qinv. cbn in *. nia.
Qed.

Lemma mag_spec (x : Q) :
  0 < x -> b ^ mag radix x <= x /\ x < b ^ (mag radix x + 1).
Proof.
  intros Hx. unfold mag. destruct (Qcompare_spec x 1) as [E|E|E].
  - apply mag_up_spec; [lra|].
    eapply Qle_lt_trans; [apply Q_le_num, Hx|].
    pose proof (Qnum_pos x Hx) as Hn.
    rewrite <- (Z2Pos.id (Qnum x)) at 1 by exact Hn. apply pos_lt_bpow.
  - apply mag_down_spec; [exact Hx|exact E|].
    eapply Qle_trans; [|apply Q_ge_inv_den, Hx].
    rewrite Qpower_opp. apply Qle_shift_inv_l.
    + change 0 with (inject_Z 0). rewrite <- Zlt_Qlt. lia.
    + pose proof (pos_lt_bpow (Qden x)) as Hd. pose proof (bpow_pos (Z.of_nat (Pos.size_nat (Qden x)))) as Hs.
      rewrite Qmult_comm. apply Qle_shift_div_r; [exact Hs|].
      setoid_rewrite Qmult_1_l. lra.
  - apply mag_up_spec; [lra|].
    eapply Qle_lt_trans; [apply Q_le_num, Hx|].
    pose proof (Qnum_pos x Hx) as Hn.
    rewrite <- (Z2Pos.id (Qnum x)) at 1 by exact Hn. apply pos_lt_bpow.
Qed.

Lemma mag_unique (x : Q) (e : Z) :
  0 < x -> b ^ e <= x -> x < b ^ (e + 1) -> mag radix x = e.
Proof.
  intros Hx Hlo Hhi. destruct (mag_spec x Hx) as [Mlo Mhi].
  assert (e < mag radix x + 1)%Z.
  { apply (Qpower_lt_compat_l_inv b); [lra|apply b_gt_1]. }
  assert (mag radix x < e + 1)%Z.
  { apply (Qpower_lt_compat_l_inv b); [lra|apply b_gt_1]. }
  lia.
Qed.

Lemma mag_proper (x y : Q) : 0 < x -> x == y -> mag radix x = mag radix y.
Proof.
  intros Hx E. symmetry. destruct (mag_spec x Hx) as [Mlo Mhi].
  apply mag_unique; rewrite <- E; assumption.
Qed.

Lemma mag_mono (x y : Q) : 0 < x -> x <= y -> (mag radix x <= mag radix y)%Z.
Proof.
  intros Hx Hxy. destruct (mag_spec x Hx) as [Xlo _].
  destruct (mag_spec y) as [_ Yhi]; [lra|].
  assert (mag radix x < mag radix y + 1)%Z; [|lia].
  apply (Qpower_lt_compat_l_inv b); [lra|apply b_gt_1].
Qed.


Lemma bpow_Z (k : Z) : (0 <= k)%Z -> inject_Z (radix ^ k) == b ^ k.
Proof. apply Zpower_Qpower. Qed.

Lemma bpow_add (e k : Z) : b ^ e * b ^ k == b ^ (e + k).
Proof. symmetry. apply Qpower_plus, b_nonzero. Qed.

Lemma scaled_bounds (x : Q) :
  0 < x ->
  b ^ (prec - 1) <= x * b ^ (prec - 1 - mag radix x) /\
  x * b ^ (prec - 1 - mag radix x) < b ^ prec.
Proof.
  intros Hx. destruct (mag_spec x Hx) as [Mlo Mhi].
  pose proof (bpow_pos (prec - 1 - mag radix x)) as Hs.
  split.
  - replace (prec - 1)%Z with (mag radix x + (prec - 1 - mag radix x))%Z at 1 by lia.
    rewrite <- bpow_add. apply Qmult_le_compat_r; [exact Mlo|lra].
  - replace prec with (mag radix x + 1 + (prec - 1 - mag radix x))%Z at 2 by lia.
    rewrite <- bpow_add. apply Qmult_lt_compat_r; [exact Hs|exact Mhi].
Qed.

Lemma rhe_scaled_bounds (x : Q) :
  0 < x ->
  (radix ^ (prec - 1) <= round_half_even (x * b ^ (prec - 1 - mag radix x)) <= radix ^ prec)%Z.
Proof.
  intros Hx. destruct (scaled_bounds x Hx) as [Hlo Hhi].
  rewrite <- (bpow_Z (prec - 1)) in Hlo by lia.
  rewrite <- (bpow_Z prec) in Hhi by lia. split.
  - rewrite <- (round_half_even_inject_Z (radix ^ (prec - 1))).
    now apply round_half_even_mono.
  - rewrite <- (round_half_even_inject_Z (radix ^ prec)).
    apply round_half_even_mono. lra.
Qed.

Lemma round_pos_bounds (x : Q) :
  0 < x ->
  b ^ mag radix x <= round_pos radix prec x /\
  round_pos radix prec x <= b ^ (mag radix x + 1).
Proof.
  intros Hx. destruct (rhe_scaled_bounds x Hx) as [Hlo Hhi].
  pose proof (bpow_pos (prec - 1 - mag radix x)) as Hs.
  unfold round_pos. cbv zeta. split.
  - apply Qle_shift_div_l; [exact Hs|]. rewrite bpow_add.
    replace (mag radix x + (prec - 1 - mag radix x))%Z with (prec - 1)%Z by lia.
    rewrite <- (bpow_Z (prec - 1)) by lia. now rewrite <- Zle_Qle.
  - apply Qle_shift_div_r; [exact Hs|]. rewrite bpow_add.
    replace (mag radix x + 1 + (prec - 1 - mag radix x))%Z with prec by lia.
    rewrite <- (bpow_Z prec) by lia. now rewrite <- Zle_Qle.
Qed.

Lemma round_pos_pos (x : Q) : 0 < x -> 0 < round_pos radix prec x.
Proof.
  intros Hx. destruct (round_pos_bounds x Hx) as [Hlo _].
  pose proof (bpow_pos (mag radix x)). lra.
Qed.

Lemma round_pos_proper (x y : Q) :
  0 < x -> x == y -> round_pos radix prec x == round_pos radix prec y.
Proof.
  intros Hx E. unfold round_pos. cbv zeta. rewrite <- (mag_proper x y Hx E).
  assert (round_half_even (x * b ^ (prec - 1 - mag radix x))
          = round_half_even (y * b ^ (prec - 1 - mag radix x))) as ->; [|reflexivity].
  apply round_half_even_proper. apply Qmult_comp; [exact E|reflexivity].
Qed.

Lemma round_pos_mono (x y : Q) :
  0 < x -> x <= y -> round_pos radix prec x <= round_pos radix prec y.
Proof.
  intros Hx Hxy. assert (0 < y) as Hy by lra.
  pose proof (mag_mono x y Hx Hxy) as Hm.
  destruct (decide (mag radix x = mag radix y)) as [E|E].
  - unfold round_pos. cbv zeta. rewrite E.
    pose proof (bpow_pos (prec - 1 - mag radix y)) as Hs.
    apply Qmult_le_compat_r; [|apply Qlt_le_weak, Qinv_lt_0_compat, Hs].
    rewrite <- Zle_Qle. apply round_half_even_mono.
    apply Qmult_le_compat_r; [exact Hxy|lra].
  - destruct (round_pos_bounds x Hx) as [_ Xhi].
    destruct (round_pos_bounds y Hy) as [Ylo _].
    assert (b ^ (mag radix x + 1) <= b ^ mag radix y) as Hb.
    { apply Qpower_le_compat_l; [lia|]. pose proof b_gt_1. lra. }
    lra.
Qed.

Lemma round_pos_idem (x : Q) :
  0 < x -> round_pos radix prec (round_pos radix prec x) == round_pos radix prec x.
Proof.
  intros Hx. pose proof (round_pos_pos x Hx) as Hr.
  destruct (rhe_scaled_bounds x Hx) as [Hlo Hhi].
  destruct (round_pos_bounds x Hx) as [Rlo Rhi].
  pose proof (bpow_pos (prec - 1 - mag radix x)) as Hs.
  set (m := round_half_even (x * b ^ (prec - 1 - mag radix x))) in *.
  assert (round_pos radix prec x == inject_Z m / b ^ (prec - 1 - mag radix x)) as Er
    by reflexivity.
  destruct (decide (m = radix ^ prec)%Z) as [Em|Em].
  - (* rounded up to the next power of the radix *)
    assert (round_pos radix prec x == b ^ (mag radix x + 1)) as Ep.
    { rewrite Er, Em, bpow_Z by lia.
      replace prec with (mag radix x + 1 + (prec - 1 - mag radix x))%Z at 1 by lia.
      rewrite <- bpow_add. field. lra. }
    assert (mag radix (round_pos radix prec x) = (mag radix x + 1)%Z) as Emag.
    { apply mag_unique; [exact Hr|rewrite Ep; lra|].
      rewrite Ep. apply Qpower_lt_compat_l; [lia|apply b_gt_1]. }
    unfold round_pos at 1. cbv zeta. rewrite Emag.
    assert (round_pos radix prec x * b ^ (prec - 1 - (mag radix x + 1))
            == inject_Z (radix ^ (prec - 1))) as Es.
    { rewrite Ep, bpow_add, bpow_Z by lia. apply Qpower_comp; [reflexivity|lia]. }
    rewrite (round_half_even_proper _ _ Es), round_half_even_inject_Z.
    rewrite Ep, bpow_Z by lia.
    pose proof (bpow_pos (prec - 1 - (mag radix x + 1))) as Hs'.
    replace (prec - 1)%Z with (mag radix x + 1 + (prec - 1 - (mag radix x + 1)))%Z at 1 by lia.
    rewrite <- bpow_add. field. lra.
  - assert (mag radix (round_pos radix prec x) = mag radix x) as Emag.
    { apply mag_unique; [exact Hr|exact Rlo|].
      rewrite Er. apply Qlt_shift_div_r; [exact Hs|]. rewrite bpow_add.
      replace (mag radix x + 1 + (prec - 1 - mag radix x))%Z with prec by lia.
      rewrite <- (bpow_Z prec) by lia. rewrite <- Zlt_Qlt. lia. }
    unfold round_pos at 1. cbv zeta. rewrite Emag.
    assert (round_pos radix prec x * b ^ (prec - 1 - mag radix x) == inject_Z m) as Es.
    { rewrite Er. field. lra. }
    rewrite (round_half_even_proper _ _ Es), round_half_even_inject_Z.
    symmetry. exact Er.
Qed.

(** *** The signed rounding *)

Lemma round_sig_0 : round_sig radix prec 0 = 0.
Proof. reflexivity. Qed.

Lemma round_sig_pos (x : Q) : 0 < x -> round_sig radix prec x = round_pos radix prec x.
Proof. intros Hx. unfold round_sig. destruct (Qcompare_spec x 0); [lra|lra|reflexivity]. Qed.

Lemma round_sig_neg (x : Q) : x < 0 -> round_sig radix prec x = - round_pos radix prec (- x).
Proof. intros Hx. unfold round_sig. destruct (Qcompare_spec x 0); [lra|reflexivity|lra]. Qed.

Lemma round_sig_zero (x : Q) : x == 0 -> round_sig radix prec x = 0.
Proof. intros Hx. unfold round_sig. destruct (Qcompare_spec x 0); [reflexivity|lra|lra]. Qed.

Lemma round_sig_proper (x y : Q) : x == y -> round_sig radix prec x == round_sig radix prec y.
Proof.
  intros E. destruct (Qlt_le_dec 0 x) as [Hx|Hx].
  - rewrite !round_sig_pos by lra. now apply round_pos_proper.
  - destruct (Qlt_le_dec x 0) as [Hn|Hn].
    + rewrite !round_sig_neg by lra. apply Qopp_comp, round_pos_proper; [lra|now rewrite E].
    + rewrite !round_sig_zero by lra. reflexivity.
Qed.

Lemma round_sig_sign (x : Q) :
  (0 < x -> 0 < round_sig radix prec x) /\ (x < 0 -> round_sig radix prec x < 0) /\
  (x == 0 -> round_sig radix prec x == 0).
Proof.
  split; [|split]; intros Hx.
  - rewrite round_sig_pos by exact Hx. now apply round_pos_pos.
  - rewrite round_sig_neg by exact Hx.
    pose proof (round_pos_pos (- x)). lra.
  - now rewrite round_sig_zero.
Qed.

Lemma round_sig_mono (x y : Q) : x <= y -> round_sig radix prec x <= round_sig radix prec y.
Proof.
  intros Hxy. destruct (round_sig_sign x) as (Xp & Xn & Xz).
  destruct (round_sig_sign y) as (Yp & Yn & Yz).
  destruct (Qlt_le_dec 0 x) as [Hx|Hx].
  - rewrite !round_sig_pos by lra. now apply round_pos_mono.
  - destruct (Qlt_le_dec y 0) as [Hy|Hy].
    + rewrite !round_sig_neg by lra.
      pose proof (round_pos_mono (- y) (- x)). lra.
    + assert (round_sig radix prec x <= 0).
      { destruct (Qlt_le_dec x 0); [specialize (Xn ltac:(lra)); lra|].
        rewrite Xz by lra. lra. }
      assert (0 <= round_sig radix prec y).
      { destruct (Qlt_le_dec 0 y); [specialize (Yp ltac:(lra)); lra|].
        rewrite Yz by lra. lra. }
      lra.
Qed.

Lemma round_sig_idem (x : Q) :
  round_sig radix prec (round_sig radix prec x) == round_sig radix prec x.
Proof.
  destruct (Qlt_le_dec 0 x) as [Hx|Hx].
  - rewrite (round_sig_pos x Hx). rewrite round_sig_pos by now apply round_pos_pos.
    now apply round_pos_idem.
  - destruct (Qlt_le_dec x 0) as [Hn|Hn].
    + rewrite (round_sig_neg x Hn).
      pose proof (round_pos_pos (- x) ltac:(lra)) as Hr.
      rewrite round_sig_neg by lra. apply Qopp_comp.
      rewrite <- (round_pos_idem (- x)) at 2 by lra.
      apply round_pos_proper; [lra|ring].
    + rewrite (round_sig_zero x) by lra. reflexivity.
Qed.

Lemma this_round_to_digits (x : Dec) :
  this (round_to_digits radix prec x) == round_sig radix prec (this x).
Proof. unfold round_to_digits. cbn. apply Qred_correct. Qed.

Lemma round_to_digits_0 : round_to_digits radix prec 0 = 0%Qc.
Proof. now apply Qc_is_canon. Qed.

Lemma round_to_digits_mono (x y : Dec) :
  (x <= y)%Qc -> (round_to_digits radix prec x <= round_to_digits radix prec y)%Qc.
Proof.
  intros Hxy. unfold Qcle. rewrite !this_round_to_digits.
  now apply round_sig_mono.
Qed.

Lemma round_to_digits_idem (x : Dec) :
  round_to_digits radix prec (round_to_digits radix prec x) = round_to_digits radix prec x.
Proof.
  apply Qc_is_canon. rewrite this_round_to_digits.
  rewrite (round_sig_proper _ _ (this_round_to_digits x)).
  rewrite this_round_to_digits. apply round_sig_idem.
Qed.

End RoundSig.

(** ** The number types of [model.py]'s callers *)

Module Numbers.

(** The values of a type with [prec] significant digits in radix
    [radix]: the numbers that rounding to that precision leaves as they
    are. *)
Record Rounded (radix prec : Z) : Type := mkRounded {
  rounded_value : Dec;
  rounded_fixed : round_to_digits radix prec rounded_value = rounded_value
}.
Arguments mkRounded {radix prec}.
Arguments rounded_value {radix prec}.
Arguments rounded_fixed {radix prec}.

Lemma Rounded_eq {radix prec : Z} (x y : Rounded radix prec) :
  rounded_value x = rounded_value y -> x = y.
Proof.
  destruct x as [x Hx], y as [y Hy]. cbn. intros ->. f_equal. apply proof_irrel.
Qed.

(** The arithmetic of such a type: the exact result, rounded. *)
Definition rounded_numbers (radix prec : Z) (Hr : (2 <= radix)%Z) (Hp : (1 <= prec)%Z)
  : Model.Number (Rounded radix prec).
Proof.
  refine {| Model.exact := rounded_value;
            Model.rounded := fun q =>
              mkRounded (round_to_digits radix prec q)
                        (round_to_digits_idem radix prec Hr Hp q) |}.
  - intros x. apply Rounded_eq. cbn. apply rounded_fixed.
  - intros q q' Hq. cbn. now apply round_to_digits_mono.
  - cbn. apply round_to_digits_0.
Defined.

(** Python's [float]: IEEE 754 binary64, 53 significant bits. *)
Definition binary64 : Model.Number (Rounded 2 53) :=
  rounded_numbers 2 53 ltac:(lia) ltac:(lia).

(** [Decimal] under the default context: 28 significant digits. *)
Definition decimal28 : Model.Number (Rounded 10 28) :=
  rounded_numbers 10 28 ltac:(lia) ltac:(lia).

Lemma this_inject (k : Z) : (this (Q2Qc (inject_Z k)) == inject_Z k)%Q.
Proof. cbn. apply Qred_correct. Qed.

(** Python's [int]: the whole numbers, with exact arithmetic. *)
Definition whole : Model.Number Z.
Proof.
  refine {| Model.exact := fun k => Q2Qc (inject_Z k);
            Model.rounded := fun q => Qfloor (this q) |}.
  - intros k. rewrite (Qfloor_comp _ _ (this_inject k)). apply Qfloor_Z.
  - intros q q' Hq. unfold Qcle. rewrite !this_inject, <- Zle_Qle.
    now apply Qfloor_resp_le.
  - now apply Qc_is_canon.
Defined.

Lemma whole_exact_arithmetic : exact_arithmetic (H := whole) Z.
Proof.
  intros x y. unfold Model.num_add, Model.num_sub. cbn [Model.exact Model.rounded whole].
  split; apply Qc_is_canon; rewrite this_inject.
  - rewrite (Qfloor_comp _ (inject_Z (x + y))), Qfloor_Z.
    + cbv [Qcplus Q2Qc this]. rewrite !Qred_correct. now rewrite inject_Z_plus.
    + cbv [Qcplus Q2Qc this]. rewrite !Qred_correct. now rewrite inject_Z_plus.
  - rewrite (Qfloor_comp _ (inject_Z (x - y))), Qfloor_Z.
    + cbv [Qcminus Qcplus Qcopp Q2Qc this]. rewrite !Qred_correct.
      unfold Z.sub. now rewrite inject_Z_plus, inject_Z_opp.
    + cbv [Qcminus Qcplus Qcopp Q2Qc this]. rewrite !Qred_correct.
      unfold Z.sub. now rewrite inject_Z_plus, inject_Z_opp.
Qed.

(** A model whose quantities are [float]s: a pool of 0.7 curits and an
    agent holding 0.3. *)
Definition float_model : Model.Havven (Rounded 2 53) unit :=
  Model.mkHavven 1
    (Model.mkHavvenSettings 1 (dec 1000 1) 1 true (Model.rounded (Number := binary64) (dec 7 10)))
    [Model.Agent.mk (Model.rounded (Number := binary64) (dec 3 10))] tt [].

End Numbers.

(** ** The modelled collaborators on the scenarios of the specification *)

(** Specification 8: two asks at price 10, quantities 5 and 3, submitted
    in that order; a market buy for 6 fills the first completely and one
    unit of the second, which is left resting with 2. *)
Lemma buy_fills_in_price_time_order :
  let run := Book.buy (H := Scenario.model8) HavvenFiat (dec 6 1) 1
               Scenario.market_one_level in
  fst run = inr (Some 2%nat) /\
  asks (havven_fiat_market (snd run)) = [mkLimitOrder 1 0 (dec 10 1) (dec 2 1)] /\
  bids (havven_fiat_market (snd run)) = [].
Proof. cbv zeta. repeat split; compute_done. Qed.

(** Specification 8: 100 escrowed havvens, a price of 2 and a cap of 0.8
    give issuance rights of 160; issuing 100 succeeds, a further 70 is
    refused and changes nothing. *)
Lemma issue_within_rights_then_beyond :
  let first := issue_nomins (H := Scenario.model8) (H0 := Scenario.oracle)
                 2 (dec 100 1) Scenario.market in
  let second := issue_nomins (H := Scenario.model8) (H0 := Scenario.oracle)
                  2 (dec 70 1) (snd first) in
  Mint.max_issuance_rights (H := Scenario.oracle) Scenario.escrower = dec 160 1 /\
  fst first = inr true /\
  issued_nomins <$> agents (snd first) !! 2%nat = Some (dec 100 1) /\
  fst second = inr false /\
  agents (snd second) = agents (snd first).
Proof. cbv zeta. repeat split; compute_done. Qed.

(** ** Available balances (C2) *)




(** The same at every precision: a fifth of a unit of the last place is
    reported as nothing. *)
Lemma available_drops_fine_digits `{HavvenModel} :
  let tiny := Q2Qc (1 # (5 * Z.to_pos (scale currency_precision))) in
  let p := mkMarketPlayer tiny 0 0 0 0 0 0 0 0 in
  available_fiat p = 0 /\ fiat p - unavailable_fiat p <> 0.
Proof.
  intros tiny p. unfold available_fiat, round_decimal. cbn [fiat unavailable_fiat p].
  pose proof (inject_scale_pos currency_precision) as Hs.
  assert (this tiny == (1 # 5) / inject_Z (scale currency_precision))%Q as Ht.
  { unfold tiny. cbn [this Q2Qc]. rewrite Qred_correct, Qmake_Qdiv.
    rewrite Pos2Z.inj_mul, scale_to_pos, inject_Z_mult.
    change (inject_Z 5) with 5%Q. change (inject_Z 1) with 1%Q. field. lra. }
  assert (tiny - 0 = tiny) as -> by ring.
  split.
  - apply Qc_is_canon. rewrite this_round_to.
    assert (round_half_even (this tiny * inject_Z (scale currency_precision)) = 0%Z) as ->.
    { transitivity (round_half_even (1 # 5)); [|reflexivity].
      apply round_half_even_proper. rewrite Ht. field. lra. }
    change (this 0) with 0%Q. change (inject_Z 0) with 0%Q. unfold Qdiv. ring.
  - intros E. apply (f_equal this) in E. change (this 0) with 0%Q in E.
    assert (this tiny == 0)%Q as E' by (rewrite E; reflexivity).
    rewrite Ht in E'. apply Qmult_integral in E' as [E'|E']; [discriminate|].
    apply Qinv_lt_0_compat in Hs. rewrite E' in Hs. lra.
Qed.

(** ** Wealth and profit (C4, C9) *)





(** ** Selling the quoted currency (C1, C3) *)

Lemma available_quoted_run `{HavvenModel} (book : Market) (self : nat) (w : World) p :
  agents w !! self = Some p ->
  available_quoted book self w = (inr (available (quoted (book_of book w)) p), w).
Proof. intros E. unfold available_quoted, bind, agent_ref, gets, ret. now rewrite E. Qed.

(** C1: whatever the order book does, when the requested quantity capped
    at the caller's available balance of the book's quoted currency is
    strictly below 0.0005, [_sell_quoted] returns no order and leaves the
    whole world, every account of it included, as it was; so do its three
    wrappers, each on its own book. *)
Theorem sell_quoted_dust_is_noop `{HavvenModel} `{OrderBookOps}
    (fuel : nat) (book : Market) (self : nat) (quantity : Dec) (w : World)
    (p : MarketPlayer) :
  agents w !! self = Some p ->
  (dec_min quantity (available (quoted (book_of book w)) p) < dust)%Qc ->
  _sell_quoted fuel book self quantity w = (inr None, w) /\
  match book with
  | HavvenNomin => sell_nomins_for_havvens fuel self quantity w
  | HavvenFiat => sell_fiat_for_havvens fuel self quantity w
  | NominFiat => sell_fiat_for_nomins fuel self quantity w
  end = (inr None, w).
Proof.
  intros Hp Hdust.
  assert (_sell_quoted fuel book self quantity w = (inr None, w)) as E.
  { unfold _sell_quoted, bind at 1. rewrite (available_quoted_run _ _ _ _ Hp).
    now rewrite decide_True by exact Hdust. }
  split; [exact E|]. destruct book; exact E.
Qed.

(** The buyer of the scenario asks to sell 0.0001 fiat. *)
Lemma sell_quoted_dust_is_noop_witness :
  _sell_quoted (H := Scenario.model8) (H0 := Book.ops (H := Scenario.model8))
    0 HavvenFiat 1 (dec 1 10000) Scenario.market = (inr None, Scenario.market) /\
  sell_fiat_for_havvens (H := Scenario.model8) (H0 := Book.ops (H := Scenario.model8))
    0 1 (dec 1 10000) Scenario.market = (inr None, Scenario.market).
Proof.
  apply (sell_quoted_dust_is_noop (H := Scenario.model8)
           (H0 := Book.ops (H := Scenario.model8))
           0 HavvenFiat 1 (dec 1 10000) Scenario.market Scenario.buyer).
  - reflexivity.
  - reflexivity.
Defined.

(** X7: the loop of [_sell_quoted] does not run while asks rest in the book,
    whatever the order book does: its guard asks for an empty ask queue,
    where the comment above it says "until we run out of sellers". *)
Lemma keep_on_bidding_idle_while_asks_rest `{HavvenModel} `{OrderBookOps}
    (fuel : nat) (book : Market) (self : nat) (quantity : Dec)
    (bid0 : option nat) (total_sold : Dec) (w : World) :
  asks (book_of book w) <> [] ->
  keep_on_bidding fuel book self quantity bid0 total_sold w = (inr (bid0, total_sold), w).
Proof.
  intros Hasks.
  assert (keep_bidding book bid0 total_sold quantity w = (inr false, w)) as E.
  { unfold keep_bidding. destruct bid0 as [b|]; [|reflexivity].
    unfold bind, gets, ret. destruct (asks (book_of book w)); [done|].
    cbn [length Nat.eqb]. now rewrite andb_false_r. }
  destruct fuel; cbn [keep_on_bidding]; unfold bind at 1; now rewrite E.
Qed.

(** C3, where the code departs from it: agent 1 holds 1000 fiat and sells
    all of it for havvens into a book whose asks (5 havvens at 10 fiat,
    3 havvens at 11 fiat) are worth 83 fiat.  The asks at the best price
    are bought; the ask at 11 stays in the book untouched, and the bid
    that comes to rest is for 95 havvens at 10. *)
Theorem sell_quoted_leaves_dearer_asks :
  let run := sell_fiat_for_havvens (H := Scenario.model8)
               (H0 := Book.ops (H := Scenario.model8))
               1 1 (dec 1000 1) Scenario.market in
  fst run = inr (Some 3%nat) /\
  asks (havven_fiat_market (snd run)) = [mkLimitOrder 1 0 (dec 11 1) (dec 3 1)] /\
  bids (havven_fiat_market (snd run)) = [mkLimitOrder 3 1 (dec 10 1) (dec 95 1)].
Proof. cbv zeta. repeat split; compute_done. Qed.

(** ** Auxiliary facts *)

Lemma bind_ok {S A B} (m : M S A) (k : A -> M S B) s a s' :
  m s = (inr a, s') -> bind m k s = k a s'.
Proof. intros E. unfold bind. now rewrite E. Qed.


Lemma agent_ref_raised (a : nat) (w : World) :
  agents w !! a = None -> agent_ref a w = (inl DanglingReference, w).
Proof. intros E. unfold agent_ref. now rewrite E. Qed.

(** Python's [min] is the smaller of its arguments. *)
Lemma dec_min_cases (a b : Dec) :
  (dec_min a b = a /\ a <= b) \/ (dec_min a b = b /\ b < a).
Proof.
  unfold dec_min. destruct (decide (b < a)); [right; done|left].
  split; [done|]. now apply Qcnot_lt_le.
Qed.

(** A sum over an arena after one of its entries is altered. *)
Lemma sum_alter {A} (f : A -> Dec) (g : A -> A) (i : nat) (l : list A) (x : A) :
  l !! i = Some x ->
  foldr (fun a acc => f a + acc) 0 (alter g i l)
  = foldr (fun a acc => f a + acc) 0 l - f x + f (g x).
Proof.
  revert i. induction l as [|y l IH]; intros [|i] E; try done.
  - cbn in E. injection E as ->. cbn. ring.
  - cbn in E. cbn. rewrite (IH _ E). ring.
Qed.

Lemma balance_set_balance X v p : balance X (set_balance X v p) = v.
Proof. now destruct X. Qed.


Lemma available_eq `{HavvenModel} X p :
  available X p = round_decimal (balance X p - unavailable X p).
Proof. now destruct X. Qed.

Lemma update_agent_update (i : nat) (f g : MarketPlayer -> MarketPlayer) (w : World) :
  update_agent i g (update_agent i f w) = update_agent i (g ∘ f) w.
Proof.
  unfold update_agent, with_agents. cbn. f_equal. apply list_alter_alter_eq.
Qed.

Lemma update_agent_id (i : nat) (f : MarketPlayer -> MarketPlayer) (w : World) :
  (forall p, f p = p) -> update_agent i f w = w.
Proof.
  intros Hf. unfold update_agent, with_agents. rewrite (list_alter_id _ _ _ Hf).
  now destruct w.
Qed.

(** ** Issuing and burning nomins (C7) *)

Lemma issue_nomins_run `{HavvenModel} `{MintOracle} (a : nat) (q : Dec) (w : World)
    (p : MarketPlayer) :
  agents w !! a = Some p ->
  issue_nomins a q w =
    if decide (q <= 0)%Qc then (inr false, w)
    else if decide (Mint.max_issuance_rights p - issued_nomins p < q)%Qc then (inr false, w)
    else (inr true,
          update_agent a (fun p => set_issued_nomins (round_decimal (issued_nomins p + q))
                                     (set_balance Nomins (round_decimal (nomins p + q)) p)) w).
Proof.
  intros E. unfold issue_nomins, Mint.issue_nomins, bind at 1, agent_ref. rewrite E.
  now repeat destruct (decide _).
Qed.

Lemma burn_nomins_run `{HavvenModel} (a : nat) (q : Dec) (w : World) (p : MarketPlayer) :
  agents w !! a = Some p ->
  burn_nomins a q w =
    if decide (q <= 0)%Qc then (inr false, w)
    else if decide (available_nomins p < q)%Qc then (inr false, w)
    else if decide (issued_nomins p < q)%Qc then (inr false, w)
    else (inr true,
          update_agent a (fun p => set_issued_nomins (round_decimal (issued_nomins p - q))
                                     (set_balance Nomins (round_decimal (nomins p - q)) p)) w).
Proof.
  intros E. unfold burn_nomins, Mint.burn_nomins, bind at 1, agent_ref. rewrite E.
  now repeat destruct (decide _).
Qed.




(** An issue that is refused changes nothing, and so does a burn that is
    refused. *)
Lemma refused_issue_or_burn_changes_nothing `{HavvenModel} `{MintOracle}
    (a : nat) (q : Dec) (w w' : World) :
  (issue_nomins a q w = (inr false, w') -> w' = w) /\
  (burn_nomins a q w = (inr false, w') -> w' = w).
Proof.
  destruct (agents w !! a) as [p|] eqn:Ea.
  - rewrite (issue_nomins_run _ _ _ _ Ea), (burn_nomins_run _ _ _ _ Ea).
    split; intros E; repeat destruct (decide _) in E; congruence.
  - split; intros E.
    + unfold issue_nomins, Mint.issue_nomins, bind in E.
      rewrite (agent_ref_raised _ _ Ea) in E. discriminate.
    + unfold burn_nomins, Mint.burn_nomins, bind in E.
      rewrite (agent_ref_raised _ _ Ea) in E. discriminate.
Qed.

(** ** Transfers (C8) *)

Lemma transfer_to_eq `{HavvenModel} X : transfer_to X = MarketManager.transfer X.
Proof. now destruct X. Qed.

Lemma transfer_run `{HavvenModel} X (a b : nat) (q : Dec) (w : World) pa pb :
  agents w !! a = Some pa -> agents w !! b = Some pb ->
  MarketManager.transfer X a b q w =
    if decide (q <= 0)%Qc then (inr false, w)
    else if decide (available X pa < q)%Qc then (inr false, w)
    else (inr true,
          update_agent b (fun p => set_balance X (round_decimal (balance X p + q)) p)
            (update_agent a (fun p => set_balance X (round_decimal (balance X p - q)) p) w)).
Proof.
  intros Ea Eb. unfold MarketManager.transfer, bind, agent_ref. rewrite Ea, Eb.
  now repeat destruct (decide _).
Qed.




(** In that transfer the recipient's fiat balance does not rise by the
    quantity either: every account is as it was. *)
Lemma transfer_below_precision_moves_nothing :
  let q := dec 4 1000000000 in
  let run := transfer_fiat_to (H := Scenario.model8) 1 0 q Scenario.market in
  fst run = inr true /\ agents (snd run) = agents Scenario.market.
Proof. cbv zeta. split; [vm_compute; reflexivity|]. compute_done. Qed.

(** The same at every precision: an account with 1 fiat, none reserved,
    transfers a fifth of a unit of the last place; the transfer succeeds
    and its available fiat is not lower by that amount. *)
Lemma transfer_below_any_precision `{HavvenModel} (w : World) (b : nat)
    (pb : MarketPlayer) :
  let q := Q2Qc (1 # (5 * Z.to_pos (scale currency_precision))) in
  let pa := mkMarketPlayer 1 0 0 0 0 0 0 0 0 in
  agents w !! 0%nat = Some pa -> agents w !! b = Some pb -> b <> 0%nat ->
  exists w' pa', transfer_fiat_to 0 b q w = (inr true, w') /\
    agents w' !! 0%nat = Some pa' /\
    available_fiat pa' <> available_fiat pa - q.
Proof.
  intros q pa Ea Eb Hb.
  assert (available_fiat pa = 1) as Eav.
  { unfold available_fiat, round_decimal. cbn [fiat unavailable_fiat pa].
    apply round_to_fixed_iff. exists (scale currency_precision).
    apply Qc_is_canon. cbv [Qcminus Qcplus Qcopp Q2Qc this]. rewrite !Qred_correct.
    rewrite frac_scale. pose proof (inject_scale_pos currency_precision). field. lra. }
  assert (~ (available Fiat pa < q)) as Hok.
  { cbn [available]. rewrite Eav. apply Qcle_not_lt.
    unfold q. cbv [Qcle Q2Qc this]. rewrite !Qred_correct.
    unfold Qle. cbn. lia. }
  assert (~ (q <= 0)) as Hpos.
  { apply Qclt_not_le. unfold q. cbv [Qclt Q2Qc this]. rewrite !Qred_correct.
    unfold Qlt. cbn. lia. }
  unfold transfer_fiat_to. rewrite (transfer_run _ _ _ _ _ _ _ Ea Eb).
  rewrite decide_False by exact Hpos. rewrite decide_False by exact Hok.
  eexists _, _. split; [reflexivity|]. split.
  - cbn. rewrite list_lookup_alter_ne by done.
    rewrite list_lookup_alter_eq, Ea. reflexivity.
  - rewrite Eav. intros E. apply (fifth_off_grid currency_precision). fold q. rewrite <- E.
    apply round_to_on_grid.
Qed.

(** A transfer of a quantity that is not positive is refused and changes
    nothing, whoever the parties are. *)
Lemma transfer_of_nothing_is_refused `{HavvenModel} (X : Currency) (a b : nat) (q : Dec)
    (w : World) (pa pb : MarketPlayer) :
  agents w !! a = Some pa -> agents w !! b = Some pb -> q <= 0 ->
  transfer_to X a b q w = (inr false, w).
Proof.
  intros Ea Eb Hq. rewrite transfer_to_eq, (transfer_run _ _ _ _ _ _ _ Ea Eb).
  now rewrite decide_True.
Qed.

(** A transfer to oneself of a quantity on the grid, from a balance on
    the grid, succeeds and moves nothing, which is why the amended
    statement asks for two different accounts. *)
Lemma transfer_to_self_moves_nothing `{HavvenModel} (X : Currency) (a : nat) (q : Dec)
    (w : World) (pa : MarketPlayer) :
  agents w !! a = Some pa -> 0 < q -> q <= available X pa ->
  on_grid currency_precision q -> on_grid currency_precision (balance X pa) ->
  transfer_to X a a q w = (inr true, w).
Proof.
  intros Ea Hq Hav Gq Ga. rewrite transfer_to_eq, (transfer_run _ _ _ _ _ _ _ Ea Ea).
  rewrite decide_False by now apply Qclt_not_le.
  rewrite decide_False by now apply Qcle_not_lt.
  f_equal. rewrite update_agent_update. unfold update_agent, with_agents.
  assert (alter ((fun p => set_balance X (round_decimal (balance X p + q)) p)
                 ∘ (fun p => set_balance X (round_decimal (balance X p - q)) p))
            a (agents w) = agents w) as ->; [|now destruct w].
  apply list_eq. intros i. destruct (decide (i = a)) as [->|Hne].
  - rewrite list_lookup_alter_eq, Ea. cbn. f_equal.
    rewrite balance_set_balance. unfold round_decimal.
    rewrite (proj2 (round_to_fixed_iff _ (balance X pa - q))) by now apply on_grid_minus.
    assert (balance X pa - q + q = balance X pa) as -> by ring.
    rewrite (proj2 (round_to_fixed_iff _ _) Ga).
    now destruct X, pa.
  - now rewrite list_lookup_alter_ne.
Qed.

(** ** The model step and the endowment of curits (C5, C6, C10) *)

Section ModelFacts.
Import Model.
Context {N Env : Type} `{Collaborators N Env} `{Number N}.

Lemma call_spec (c : Call) (h : Havven N Env) :
  exists h', call c h = (inr tt, h') /\
    time h' = time h /\ settings h' = settings h /\ log h' = log h ++ [c].
Proof.
  unfold call, modify. eexists. split; [reflexivity|].
  destruct (perform c (agents h, env h)); done.
Qed.

(** [step] up to and including the batch matching. *)
Lemma step_prefix (h : Havven N Env) :
  exists h1, time h1 = time h /\ settings h1 = settings h /\
    log h1 = log h ++ schedule_step ::
               (if match_on_order (settings h) then []
                else [market_match cur_nom_market; market_match cur_fiat_market;
                      market_match nom_fiat_market]) /\
    step h =
      (t <- gets time ;;
       r <- lift (py_mod t fee_period) ;;
       (if decide (r = 0)%Z then call distribute_fees else ret tt) ;;;
       call collect ;;;
       modify (fun h => set_time (time h + 1)%Z h)) h1.
Proof.
  destruct (call_spec schedule_step h) as (h0 & E0 & T0 & S0 & L0).
  unfold step. rewrite (bind_ok _ _ _ _ _ E0).
  unfold gets at 1, bind at 1. rewrite S0.
  destruct (match_on_order (settings h)) eqn:Em; cbn [negb].
  - exists h0. rewrite T0, S0, L0. repeat split.
  - destruct (call_spec (market_match cur_nom_market) h0) as (h1 & E1 & T1 & S1 & L1).
    destruct (call_spec (market_match cur_fiat_market) h1) as (h2 & E2 & T2 & S2 & L2).
    destruct (call_spec (market_match nom_fiat_market) h2) as (h3 & E3 & T3 & S3 & L3).
    exists h3. repeat split; try congruence.
    + rewrite L3, L2, L1, L0. rewrite <- !app_assoc. reflexivity.
    + unfold bind at 1. unfold bind at 1. rewrite E1.
      unfold bind at 1. rewrite E2. rewrite E3. reflexivity.
Qed.

(** [step] from the fee test on, for a fee period other than zero. *)
Lemma step_suffix (h1 : Havven N Env) :
  fee_period <> 0%Z ->
  exists h2,
    (t <- gets time ;;
     r <- lift (py_mod t fee_period) ;;
     (if decide (r = 0)%Z then call distribute_fees else ret tt) ;;;
     call collect ;;;
     modify (fun h => set_time (time h + 1)%Z h)) h1 = (inr tt, h2) /\
    time h2 = (time h1 + 1)%Z /\ settings h2 = settings h1 /\
    log h2 = log h1 ++ (if decide (time h1 mod fee_period = 0)%Z
                        then [distribute_fees] else [])
                    ++ [collect].
Proof.
  intros Hp. unfold gets at 1, bind at 1. unfold lift, py_mod, bind at 1.
  rewrite decide_False by done.
  destruct (decide (time h1 mod fee_period = 0)%Z) as [Ez|Ez].
  - destruct (call_spec distribute_fees h1) as (h2 & E2 & T2 & S2 & L2).
    destruct (call_spec collect h2) as (h3 & E3 & T3 & S3 & L3).
    unfold bind at 1. rewrite E2. unfold bind at 1. rewrite E3.
    eexists. split; [reflexivity|]. cbn. rewrite T3, T2, S3, S2, L3, L2.
    rewrite <- app_assoc. done.
  - destruct (call_spec collect h1) as (h3 & E3 & T3 & S3 & L3).
    unfold bind at 1, ret at 1. unfold bind at 1. rewrite E3.
    eexists. split; [reflexivity|]. cbn. rewrite T3, S3, L3. done.
Qed.

(** [step] from the fee test on, whatever the fee period: with a period
    of zero the test raises and nothing more is called. *)
Lemma step_suffix_any (h1 : Havven N Env) :
  exists r h2 rest,
    (t <- gets time ;;
     r <- lift (py_mod t fee_period) ;;
     (if decide (r = 0)%Z then call distribute_fees else ret tt) ;;;
     call collect ;;;
     modify (fun h => set_time (time h + 1)%Z h)) h1 = (r, h2) /\
    log h2 = log h1 ++ rest /\
    forall c, c ∈ rest -> c = distribute_fees \/ c = collect.
Proof.
  destruct (decide (fee_period = 0%Z)) as [Hp|Hp].
  - exists (inl ZeroDivisionError), h1, []. repeat split.
    + unfold gets at 1, bind at 1. unfold lift, py_mod, bind at 1.
      now rewrite decide_True by done.
    + now rewrite app_nil_r.
    + intros c Hc. inversion Hc.
  - destruct (step_suffix h1 Hp) as (h2 & E & _ & _ & L).
    eexists _, h2, _. repeat split; [exact E | exact L |].
    intros c Hc. rewrite elem_of_app, list_elem_of_singleton in Hc.
    destruct Hc as [Hc|Hc]; [left|right; done].
    destruct (decide (time h1 mod fee_period = 0)%Z); [|inversion Hc].
    now apply list_elem_of_singleton in Hc.
Qed.










(** Python's [min] on the numbers of the model is the smaller of its
    arguments. *)
Lemma num_min_cases (a b : N) :
  (num_min a b = a /\ exact a <= exact b) \/ (num_min a b = b /\ exact b < exact a).
Proof.
  unfold num_min. destruct (decide (exact b < exact a)); [right; done|left].
  split; [done|]. now apply Qcnot_lt_le.
Qed.

(** What rounding into the number type keeps: the sign of a result that
    is not negative, and the values of the type. *)
Lemma rounded_nonneg (q : Dec) : 0 <= q -> 0 <= exact (rounded q).
Proof. intros Hq. rewrite <- rounded_0. now apply rounded_mono. Qed.

Lemma rounded_below (q : Dec) (x : N) : q <= exact x -> exact (rounded q) <= exact x.
Proof. intros Hq. rewrite <- (rounded_exact x) at 1. now apply rounded_mono. Qed.

Lemma rounded_above (q : Dec) (x : N) : exact x <= q -> exact x <= exact (rounded q).
Proof. intros Hq. rewrite <- (rounded_exact x) at 1. now apply rounded_mono. Qed.

(** One endowment of an agent of the model. *)
Lemma endow_curits_run (agent : nat) (curits : N) (h : Havven N Env) (a : Agent.t N) :
  agents h !! agent = Some a ->
  endow_curits agent curits h =
    (inr tt,
     if decide (0 < exact curits)%Qc then
       set_settings
         (set_curits (num_sub (Model.curits (settings h))
                        (num_min (Model.curits (settings h)) curits)) (settings h))
         (set_agents
            (alter (fun a => Agent.mk (num_add (Agent.curits a)
                                         (num_min (Model.curits (settings h)) curits)))
               agent (agents h)) h)
     else h).
Proof.
  intros Ha. unfold endow_curits. destruct (decide (0 < exact curits)); [|reflexivity].
  unfold gets at 1, bind at 1. unfold agent_ref, bind at 1. rewrite Ha. reflexivity.
Qed.

(** C10, as amended: an endowment of a positive amount of curits takes
    the smaller of the amount and the pool; the agent's holding becomes
    its sum with that value and the pool its difference with it, each as
    the arithmetic of the number type computes it, so that the pool plus
    all holdings is the same afterwards whenever that sum and that
    difference are exact.  A pool that was not negative is not negative
    afterwards, and a non-positive request changes nothing. *)
Theorem endow_curits_conserves (agent : nat) (curits : N) (h : Havven N Env)
    (a : Agent.t N) :
  agents h !! agent = Some a ->
  let pool := Model.curits (settings h) in
  let value := num_min pool curits in
  exists h', endow_curits agent curits h = (inr tt, h') /\
    (0 < exact curits ->
       agents h' = <[agent := Agent.mk (num_add (Agent.curits a) value)]> (agents h) /\
       Model.curits (settings h') = num_sub pool value /\
       (exact (num_add (Agent.curits a) value) = exact (Agent.curits a) + exact value ->
        exact (num_sub pool value) = exact pool - exact value ->
        total_curits h' = total_curits h)) /\
    (0 <= exact pool -> 0 <= exact (Model.curits (settings h'))) /\
    (exact curits <= 0 -> h' = h).
Proof.
  intros Ha pool value. rewrite (endow_curits_run _ _ _ _ Ha).
  destruct (decide (0 < exact curits)) as [Hpos|Hneg].
  - eexists. split; [reflexivity|]. fold pool. fold value.
    cbn [agents settings set_agents set_settings set_curits Model.curits].
    split; [intros _; split; [|split; [reflexivity|]]|split].
    + apply list_eq. intros j. destruct (decide (agent = j)) as [<-|Hj].
      * rewrite list_lookup_alter_eq, Ha. cbn.
        rewrite list_lookup_insert_eq; [done|]. eapply lookup_lt_Some; eauto.
      * rewrite list_lookup_alter_ne, list_lookup_insert_ne by done. done.
    + intros Eadd Esub. unfold total_curits, set_settings, set_agents, set_curits.
      cbn [agents settings Model.curits].
      rewrite (sum_alter (fun a => exact (Agent.curits a)) _ _ _ _ Ha).
      cbn [Agent.curits]. fold pool. rewrite Eadd, Esub. ring.
    + intros Hpool. apply rounded_nonneg. unfold value.
      destruct (num_min_cases pool curits) as [[-> _]|[-> Hlt]]; qc_lra.
    + intros Hle. exfalso. eapply Qclt_not_le; eauto.
  - exists h. split; [reflexivity|]. split; [intros Hpos; contradiction|]. split; [done|done].
Qed.

End ModelFacts.



(** In [float]s: out of a pool of 0.7 curits, an agent holding 0.3
    curits asks for 0.1. *)
Lemma endow_curits_conserves_witness :
  let ask := Model.rounded (Number := Numbers.binary64) (dec 1 10) in
  let held := Model.rounded (Number := Numbers.binary64) (dec 3 10) in
  let pool := Model.curits (Model.settings Numbers.float_model) in
  let value := Model.num_min (H := Numbers.binary64) pool ask in
  exists h',
    Model.endow_curits (H0 := Numbers.binary64) 0 ask Numbers.float_model = (inr tt, h') /\
    (0 < Model.exact (Number := Numbers.binary64) ask ->
       Model.agents h' =
         <[0%nat := Model.Agent.mk (Model.num_add (H := Numbers.binary64) held value)]>
           (Model.agents Numbers.float_model) /\
       Model.curits (Model.settings h') = Model.num_sub (H := Numbers.binary64) pool value /\
       (Model.exact (Number := Numbers.binary64)
          (Model.num_add (H := Numbers.binary64) held value)
        = Model.exact (Number := Numbers.binary64) held
          + Model.exact (Number := Numbers.binary64) value ->
        Model.exact (Number := Numbers.binary64)
          (Model.num_sub (H := Numbers.binary64) pool value)
        = Model.exact (Number := Numbers.binary64) pool
          - Model.exact (Number := Numbers.binary64) value ->
        Model.total_curits (H0 := Numbers.binary64) h'
        = Model.total_curits (H0 := Numbers.binary64) Numbers.float_model)) /\
    (0 <= Model.exact (Number := Numbers.binary64) pool ->
     0 <= Model.exact (Number := Numbers.binary64) (Model.curits (Model.settings h'))) /\
    (Model.exact (Number := Numbers.binary64) ask <= 0 -> h' = Numbers.float_model).
Proof.
  cbv zeta.
  apply (endow_curits_conserves (H0 := Numbers.binary64) 0
           (Model.rounded (Number := Numbers.binary64) (dec 1 10)) Numbers.float_model
           (Model.Agent.mk (Model.rounded (Number := Numbers.binary64) (dec 3 10)))).
  reflexivity.
Defined.

(** C10, as stated, fails: with [float]s, a pool of 0.7 curits and an
    agent holding 0.3 curits and asking for 0.1.  The agent gets
    [0.3 + 0.1], the float 0.4, and the pool becomes [0.7 - 0.1], the
    float 0.6; the pool and the holding add up to 1 afterwards and to
    [1 - 2^-54] before. *)
Lemma endow_curits_in_floats_changes_total :
  let ask := Model.rounded (Number := Numbers.binary64) (dec 1 10) in
  let run := Model.endow_curits (H0 := Numbers.binary64) 0 ask Numbers.float_model in
  fst run = inr tt /\
  Model.total_curits (H0 := Numbers.binary64) (snd run) = 1 /\
  Model.total_curits (H0 := Numbers.binary64) Numbers.float_model
  = Q2Qc (18014398509481983 # 18014398509481984) /\
  Model.total_curits (H0 := Numbers.binary64) (snd run)
  <> Model.total_curits (H0 := Numbers.binary64) Numbers.float_model.
Proof.
  cbv zeta. split; [reflexivity|]. split; [|split].
  - apply Qc_is_canon. vm_compute. reflexivity.
  - apply Qc_is_canon. vm_compute. reflexivity.
  - intros E. apply (f_equal this) in E. vm_compute in E. discriminate.
Qed.

(** * More of the code *)

(** ** [MarketPlayer._fraction] *)

(** X1: for a divisor of at least one and a quantity that is not negative
    and has no digits beyond the currency precision, [_fraction] returns
    a value between [min(minimum, qty)] and the quantity itself, and the
    whole quantity when it does not exceed the minimum. *)
Theorem fraction_within_quantity `{HavvenModel} (qty divisor minimum : Dec) :
  1 <= divisor -> 0 <= qty -> on_grid currency_precision qty ->
  exists r, _fraction qty divisor minimum = inr r /\
    dec_min minimum qty <= r /\ r <= qty /\
    (qty <= minimum -> r = qty).
Proof.
  intros Hd Hq Hg. unfold _fraction, dec_div.
  assert (0 < divisor) as Hpos by qc_lra.
  assert (divisor <> 0) as Hnz by now apply Qcpos_nonzero.
  rewrite decide_False by exact Hnz.
  eexists. split; [reflexivity|].
  assert (round_decimal (qty / divisor) <= qty) as Hr.
  { unfold round_decimal. rewrite <- (proj2 (round_to_fixed_iff _ _) Hg) at 2.
    apply round_to_mono. apply Qcdiv_le_iff; [exact Hpos|].
    rewrite <- (Qcmult_1_r qty) at 1. now apply Qcmult_le_mono_nonneg_l. }
  assert (dec_min minimum qty <= qty) as Hm.
  { destruct (dec_min_cases minimum qty) as [[-> Hle]|[-> _]]; [exact Hle|apply Qcle_refl]. }
  destruct (dec_max_cases (round_decimal (qty / divisor)) (dec_min minimum qty))
    as [[-> Hle]|[-> Hlt]].
  - split; [exact Hle|]. split; [exact Hr|].
    intros Hqm. apply Qcle_antisym; [exact Hr|].
    destruct (dec_min_cases minimum qty) as [[Em Hle']|[Em Hlt']].
    + assert (minimum = qty) as -> by now apply Qcle_antisym.
      now rewrite Em in Hle.
    + now rewrite Em in Hle.
  - split; [apply Qcle_refl|]. split; [exact Hm|].
    intros Hqm. destruct (dec_min_cases minimum qty) as [[Em Hle']|[Em Hlt']].
    + rewrite Em. now apply Qcle_antisym.
    + exact Em.
Qed.

(** A third of 10, with a minimum of 1, at eight decimal places. *)
Lemma fraction_within_quantity_witness :
  exists r, _fraction (H := Scenario.model8) (dec 10 1) (dec 3 1) 1 = inr r /\
    dec_min 1 (dec 10 1) <= r /\ r <= dec 10 1 /\
    (dec 10 1 <= 1 -> r = dec 10 1).
Proof.
  apply (fraction_within_quantity (H := Scenario.model8) (dec 10 1) (dec 3 1) 1).
  - vm_compute. discriminate.
  - vm_compute. discriminate.
  - exists 1000000000%Z. apply Qc_is_canon. reflexivity.
Defined.

(** A zero divisor makes [_fraction] raise, whatever the minimum:
    [InvalidOperation] for a zero quantity and [DivisionByZero]
    otherwise. *)
Lemma fraction_zero_divisor `{HavvenModel} (qty minimum : Dec) :
  _fraction qty 0 minimum
  = inl (if decide (qty = 0) then InvalidOperation else DivisionByZero).
Proof. unfold _fraction, dec_div. rewrite decide_True by done. now destruct (decide _). Qed.

(** ** [MarketPlayer.round_values] *)

(** X2: [round_values] is idempotent, leaves every balance without digits
    beyond the currency precision, does not touch the reserved amounts,
    and after it the available balance of an asset whose reserved amount
    has no such digits either is exactly balance minus reserved. *)
Theorem round_values_settles `{HavvenModel} (self : MarketPlayer) :
  round_values (round_values self) = round_values self /\
  (forall X, on_grid currency_precision (balance X (round_values self))) /\
  (forall X, unavailable X (round_values self) = unavailable X self) /\
  (forall X, on_grid currency_precision (unavailable X self) ->
     available X (round_values self)
     = balance X (round_values self) - unavailable X (round_values self)).
Proof.
  assert (forall X, balance X (round_values self) = round_decimal (balance X self)) as Hb
    by (intros []; reflexivity).
  assert (forall X, unavailable X (round_values self) = unavailable X self) as Hu
    by (intros []; reflexivity).
  split; [|split; [|split]].
  - destruct self. unfold round_values, round_decimal. cbn.
    now rewrite !round_to_idem.
  - intros X. rewrite Hb. apply round_to_on_grid.
  - exact Hu.
  - intros X HX. rewrite available_eq. apply round_to_fixed_iff.
    apply on_grid_minus; [rewrite Hb; apply round_to_on_grid | now rewrite Hu].
Qed.

(** ** [MarketPlayer.reset_initial_wealth] *)

(** X3: [reset_initial_wealth] returns the old initial wealth and sets
    the initial wealth to the current wealth: the wealth and every
    balance stay as they were, and the profit and the profit fraction are
    zero afterwards. *)
Theorem reset_initial_wealth_zeroes_profit `{HavvenModel} (self : MarketPlayer) :
  let '(old, self') := reset_initial_wealth self in
  old = initial_wealth self /\
  wealth self' = wealth self /\
  initial_wealth self' = wealth self /\
  profit self' = 0 /\
  profit_fraction self' = inr 0 /\
  (forall X, balance X self' = balance X self /\ unavailable X self' = unavailable X self).
Proof.
  cbn [reset_initial_wealth].
  assert (profit (set_initial_wealth (wealth self) self) = 0) as Hp.
  { unfold profit, wealth. cbn. ring. }
  repeat split; try done; try (now destruct X).
  unfold profit_fraction. rewrite Hp. destruct (decide _) as [Hnz|]; [|done].
  unfold dec_div. rewrite decide_False.
  - assert (0 / initial_wealth (set_initial_wealth (wealth self) self) = 0) as ->
      by (unfold Qcdiv; ring).
    unfold round_decimal. now rewrite round_to_0.
  - intros Hz. apply Hnz. rewrite Hz. apply round_to_0.
Qed.

(** ** [MarketPlayer.available_fiat], [available_havvens], [available_nomins] *)

(** X4: the available balance follows the unreserved balance: an account
    with no less unreserved balance reports no less available balance; it
    is not negative when the reserved amount is within the balance, and
    not positive when the reserved amount covers the balance. *)
Theorem available_follows_free_balance `{HavvenModel} (X : Currency) (p p' : MarketPlayer) :
  (balance X p - unavailable X p <= balance X p' - unavailable X p' ->
   available X p <= available X p') /\
  (unavailable X p <= balance X p -> 0 <= available X p) /\
  (balance X p <= unavailable X p -> available X p <= 0).
Proof.
  rewrite !available_eq. unfold round_decimal. split; [|split].
  - apply round_to_mono.
  - intros Hle. apply round_to_nonneg. qc_lra.
  - intros Hle. apply round_to_nonpos. qc_lra.
Qed.

(** ** [MarketPlayer.calculate_burn_rate] and [MarketPlayer.step] *)

(** Without nomins above the target supply, or without nomins above those
    it issued, an agent has nothing to burn. *)
Lemma calculate_burn_rate_idle `{Stats} (self : nat) (w : World) (p : MarketPlayer) :
  agents w !! self = Some p ->
  nomin_supply w <= dec 10 1 \/ nomins p <= issued_nomins p ->
  calculate_burn_rate self w = (inr 0, w).
Proof.
  intros Ep Hidle. unfold calculate_burn_rate, bind at 1, agent_ref. rewrite Ep.
  unfold gets at 1, bind at 1.
  destruct (decide (nomin_supply w = 0)) as [Ez|Hnz]; [reflexivity|].
  unfold lift, dec_div, bind, ret. rewrite decide_False by exact Hnz.
  do 2 f_equal. destruct Hidle as [Hs|Hn].
  - assert (dec_max (nomin_supply w - dec 10 1) 0 = 0) as ->; [|ring].
    destruct (dec_max_cases (nomin_supply w - dec 10 1) 0) as [[-> Ha]|[-> _]]; [|done].
    apply Qcle_antisym; [unfold dec in *; qc_lra|done].
  - assert (dec_max (nomins p - issued_nomins p) 0 = 0) as ->; [|unfold Qcdiv; ring].
    destruct (dec_max_cases (nomins p - issued_nomins p) 0) as [[-> Ha]|[-> _]]; [|done].
    apply Qcle_antisym; [qc_lra|done].
Qed.

(** X5: for an agent of the model, [calculate_burn_rate] returns a value
    and leaves the state alone; the value is not negative, is at most one
    percent of the agent's nomins above those it issued, and is zero when
    the nomin supply is within the target of 10 or the agent holds no
    more nomins than it issued. *)
Theorem burn_rate_bounds `{Stats} (self : nat) (w : World) (p : MarketPlayer) :
  agents w !! self = Some p ->
  exists r, calculate_burn_rate self w = (inr r, w) /\
    0 <= r /\
    r <= dec 1 100 * dec_max (nomins p - issued_nomins p) 0 /\
    (nomin_supply w <= dec 10 1 -> r = 0) /\
    (nomins p <= issued_nomins p -> r = 0).
Proof.
  intros Ep. unfold calculate_burn_rate, bind at 1, agent_ref. rewrite Ep.
  unfold gets at 1, bind at 1.
  set (cs := nomin_supply w). set (ae := dec_max (nomins p - issued_nomins p) 0).
  pose proof (dec_max_0_nonneg (nomins p - issued_nomins p)) as Hae. fold ae in Hae.
  assert (0 <= dec 1 100) as Hbp by done.
  destruct (decide (cs = 0)) as [Ez|Hnz].
  - exists 0. split; [reflexivity|]. split; [apply Qcle_refl|]. split; [|done].
    rewrite <- (Qcmult_0_r (dec 1 100)). now apply Qcmult_le_mono_nonneg_l.
  - unfold lift, dec_div, bind, ret. rewrite decide_False by exact Hnz.
    eexists. split; [reflexivity|].
    destruct (dec_max_cases (cs - dec 10 1) 0) as [[-> Hex]|[-> Hex]].
    + assert (0 < cs) as Hcs by (unfold dec in *; qc_lra).
      assert (0 <= ae / cs) as Hshare.
      { apply Qcdiv_ge_iff; [exact Hcs|]. now rewrite Qcmult_0_l. }
      assert (0 <= cs - dec 10 1) as Hex' by exact Hex.
      split; [|split; [|split]].
      * apply Qcmult_nonneg; [apply Qcmult_nonneg|]; done.
      * rewrite <- Qcmult_assoc. apply Qcmult_le_mono_nonneg_l; [exact Hbp|].
        rewrite <- (Qcdiv_mult_cancel ae cs Hnz) at 2.
        apply Qcmult_le_mono_nonneg_l; [exact Hshare|]. unfold dec in *; qc_lra.
      * intros Hle.
        assert (cs - dec 10 1 = 0) as ->
          by (apply Qcle_antisym; [unfold dec in *; qc_lra|done]).
        ring.
      * intros Hle. assert (ae = 0) as ->.
        { unfold ae.
          destruct (dec_max_cases (nomins p - issued_nomins p) 0) as [[-> Ha]|[-> _]];
            [apply Qcle_antisym; [qc_lra|done]|done]. }
        unfold Qcdiv. ring.
    + assert (dec 1 100 * (ae / cs) * 0 = 0) as -> by ring.
      split; [apply Qcle_refl|]. split; [|done].
      now apply Qcmult_nonneg.
Qed.

(** The holder of 30 nomins, 20 above those it issued, with 40 nomins in
    existence. *)
Lemma burn_rate_bounds_witness :
  exists r, calculate_burn_rate (H := Cases.supply_stats) 0 Cases.flush = (inr r, Cases.flush) /\
    0 <= r /\
    r <= dec 1 100 * dec_max (nomins Cases.holder - issued_nomins Cases.holder) 0 /\
    (nomin_supply (Stats := Cases.supply_stats) Cases.flush <= dec 10 1 -> r = 0) /\
    (nomins Cases.holder <= issued_nomins Cases.holder -> r = 0).
Proof.
  apply (burn_rate_bounds (H := Cases.supply_stats) 0 Cases.flush Cases.holder).
  reflexivity.
Defined.

(** X6: the step of an agent changes nothing when the nomin supply is
    within the target of 10, or when the agent holds no more nomins than
    it issued: it burns only above both. *)
Theorem step_idle_without_excess `{HavvenModel} `{Stats} (self : nat) (w : World)
    (p : MarketPlayer) :
  agents w !! self = Some p ->
  nomin_supply w <= dec 10 1 \/ nomins p <= issued_nomins p ->
  step self w = (inr tt, w).
Proof.
  intros Ep Hidle. unfold step, bind.
  rewrite (calculate_burn_rate_idle self w p Ep Hidle). reflexivity.
Qed.

(** The issuer of the ten nomins in existence takes a step. *)
Lemma step_idle_without_excess_witness :
  step (H := Scenario.model8) (H0 := Cases.supply_stats) 0 Cases.on_target
  = (inr tt, Cases.on_target).
Proof.
  apply (step_idle_without_excess (H := Scenario.model8) (H0 := Cases.supply_stats)
           0 Cases.on_target Cases.issuer).
  - reflexivity.
  - left. vm_compute. discriminate.
Defined.

(** ** [MarketPlayer._sell_quoted] *)

(** The buyer of the scenario has placed a bid that no longer rests, and
    asks rest in the book: the loop leaves everything as it is. *)
Lemma keep_on_bidding_idle_while_asks_rest_witness :
  keep_on_bidding (H := Scenario.model8) (H0 := Book.ops (H := Scenario.model8))
    5 HavvenFiat 1 (dec 1000 1) (Some 7%nat) (dec 5 1) Scenario.market
  = (inr (Some 7%nat, dec 5 1), Scenario.market).
Proof.
  apply (keep_on_bidding_idle_while_asks_rest (H := Scenario.model8)
           (H0 := Book.ops (H := Scenario.model8))
           5 HavvenFiat 1 (dec 1000 1) (Some 7%nat) (dec 5 1) Scenario.market).
  discriminate.
Defined.

(** X8: when the lowest ask is priced at zero and the quantity to sell is
    not below the dust threshold, [_sell_quoted] raises a decimal
    division error before it places any order, whatever the order book
    does otherwise: [InvalidOperation] when the quantity at that price is
    zero too, [DivisionByZero] otherwise. *)
Theorem sell_quoted_at_zero_price_raises `{HavvenModel} `{OrderBookOps}
    (fuel : nat) (book : Market) (self : nat) (quantity level_qty : Dec)
    (w : World) (p : MarketPlayer) :
  agents w !! self = Some p ->
  dust <= dec_min quantity (available (quoted (book_of book w)) p) ->
  lowest_ask_quantity book w = (inr level_qty, w) ->
  lowest_ask_price book w = (inr 0, w) ->
  _sell_quoted fuel book self quantity w
  = (inl (if decide (dec_min (dec_min quantity (available (quoted (book_of book w)) p))
                       level_qty = 0)
          then InvalidOperation else DivisionByZero), w).
Proof.
  intros Hp Hdust Hq Hprice.
  unfold _sell_quoted, bind at 1. rewrite (available_quoted_run _ _ _ _ Hp).
  rewrite decide_False by now apply Qcle_not_lt.
  unfold bind at 1. rewrite Hq. unfold bind at 1. rewrite Hprice.
  unfold bind at 1, lift, dec_div. rewrite decide_True by done.
  now destruct (decide _).
Qed.

(** The buyer of the scenario asks to sell 100 fiat into a book whose
    only ask gives 5 havvens away. *)
Lemma sell_quoted_at_zero_price_raises_witness :
  _sell_quoted (H := Scenario.model8) (H0 := Book.ops (H := Scenario.model8))
    3 HavvenFiat 1 (dec 100 1) Cases.market_giveaway
  = (inl (if decide (dec_min (dec_min (dec 100 1)
                         (available (H := Scenario.model8)
                            (quoted (book_of HavvenFiat Cases.market_giveaway))
                            Scenario.buyer))
                       (dec 5 1) = 0)
          then InvalidOperation else DivisionByZero), Cases.market_giveaway).
Proof.
  apply (sell_quoted_at_zero_price_raises (H := Scenario.model8)
           (H0 := Book.ops (H := Scenario.model8))
           3 HavvenFiat 1 (dec 100 1) (dec 5 1) Cases.market_giveaway Scenario.buyer).
  - reflexivity.
  - vm_compute. discriminate.
  - compute_done.
  - compute_done.
Defined.

(** ** [Havven.step] and [Havven.endow_curits] *)

Section ModelMore.
Import Model.
Context {N Env : Type} `{Collaborators N Env} `{Number N}.
Implicit Types (h : Havven N Env).

(** A call leaves the step counter and the settings alone, adds itself to
    the log and acts on the collaborators' side. *)
Lemma call_effect (c : Call) (h : Havven N Env) :
  exists h', call c h = (inr tt, h') /\
    time h' = time h /\ settings h' = settings h /\ log h' = log h ++ [c] /\
    (agents h', env h') = perform c (agents h, env h).
Proof.
  unfold call, modify. eexists. split; [reflexivity|].
  destruct (perform c (agents h, env h)); done.
Qed.

Lemma performed_app (l1 l2 : list Call) s :
  performed (l1 ++ l2) s = performed l2 (performed l1 s).
Proof. unfold performed. apply foldl_app. Qed.

(** X9: with a fee period other than zero, a step of the model returns,
    advances the step counter by one, keeps the settings, and makes
    exactly the calls of [step_calls_of] in that order: the state of the
    agents and collaborators afterwards is what those calls, performed in
    order, make of the state before. *)
Theorem step_trace (h : Havven N Env) :
  fee_period <> 0%Z ->
  exists h', step h = (inr tt, h') /\
    time h' = (time h + 1)%Z /\ settings h' = settings h /\
    log h' = log h ++ step_calls_of h /\
    (agents h', env h') = performed (step_calls_of h) (agents h, env h).
Proof.
  intros Hp. unfold step.
  destruct (call_effect schedule_step h) as (h0 & E0 & T0 & S0 & L0 & P0).
  rewrite (bind_ok _ _ _ _ _ E0). unfold gets at 1, bind at 1. rewrite S0.
  assert (exists h1, 
    (if negb (match_on_order (settings h))
     then call (market_match cur_nom_market);;; call (market_match cur_fiat_market);;; call (market_match nom_fiat_market)
     else ret tt) h0 = (inr tt, h1) /\ time h1 = time h /\ settings h1 = settings h /\
     log h1 = log h ++ [schedule_step] ++ (if match_on_order (settings h) then []
   else [market_match cur_nom_market; market_match cur_fiat_market;
         market_match nom_fiat_market]) /\
     (agents h1, env h1) = performed ([schedule_step] ++ (if match_on_order (settings h) then []
   else [market_match cur_nom_market; market_match cur_fiat_market;
         market_match nom_fiat_market])) (agents h, env h)) as (h1 & E1 & T1 & S1 & L1 & P1).
  { destruct (match_on_order (settings h)); cbn [negb].
    - exists h0. split_and!; try congruence; try reflexivity.
      + now rewrite L0, app_nil_r.
      + now rewrite P0.
    - destruct (call_effect (market_match cur_nom_market) h0) as (ha & Ea & Ta & Sa & La & Pa).
      destruct (call_effect (market_match cur_fiat_market) ha) as (hb & Eb & Tb & Sb & Lb & Pb).
      destruct (call_effect (market_match nom_fiat_market) hb) as (hc & Ec & Tc & Sc & Lc & Pc).
      exists hc. split_and!; try congruence.
      + unfold bind. now rewrite Ea, Eb.
      + rewrite Lc, Lb, La, L0. now rewrite <- !app_assoc.
      + now rewrite Pc, Pb, Pa, P0. }
  rewrite (bind_ok _ _ _ _ _ E1).
  unfold gets at 1, bind at 1. unfold lift, py_mod, bind at 1.
  rewrite decide_False by done. rewrite T1.
  unfold step_calls_of.
  destruct (decide (time h mod fee_period = 0)%Z) as [Ez|Ez].
  - destruct (call_effect distribute_fees h1) as (h2 & E2 & T2 & S2 & L2 & P2).
    destruct (call_effect collect h2) as (h3 & E3 & T3 & S3 & L3 & P3).
    unfold bind at 1. rewrite E2. unfold bind at 1. rewrite E3.
    eexists. split; [reflexivity|]. cbn [time settings log agents env set_time modify].
    split_and!; try congruence.
    + rewrite L3, L2, L1. now rewrite <- !app_assoc.
    + rewrite P3, P2, P1. rewrite !app_assoc. now rewrite !performed_app.
  - destruct (call_effect collect h1) as (h3 & E3 & T3 & S3 & L3 & P3).
    unfold bind at 1, ret at 1. unfold bind at 1. rewrite E3.
    eexists. split; [reflexivity|]. cbn [time settings log agents env set_time modify].
    split_and!; try congruence.
    + rewrite L3, L1. now rewrite <- !app_assoc.
    + rewrite P3, P1. rewrite !app_assoc. now rewrite !performed_app.
Qed.

(** X10: when orders are matched as they are placed ([match_on_order]),
    a step of the model calls no order book: after [schedule.step] it
    calls nothing but [distribute_fees] and [collect]. *)
Theorem immediate_step_matches_nothing (h : Havven N Env) :
  match_on_order (settings h) = true ->
  exists rest,
    log (snd (step h)) = log h ++ schedule_step :: rest /\
    (forall c, c ∈ rest -> c = distribute_fees \/ c = collect) /\
    (forall b, market_match b ∉ schedule_step :: rest).
Proof.
  intros Hm.
  destruct (step_prefix h) as (h1 & _ & _ & L1 & ->). rewrite Hm in L1.
  destruct (step_suffix_any h1) as (r & h2 & rest & -> & L2 & Hrest).
  exists rest. split; [|split; [exact Hrest|]].
  - cbn [snd]. rewrite L2, L1. now rewrite <- app_assoc.
  - intros b Hb. apply elem_of_cons in Hb as [Hb|Hb]; [discriminate|].
    destruct (Hrest _ Hb); discriminate.
Qed.

(** X11: with a fee period of zero, a step of the model raises
    [ZeroDivisionError] at [self.time % fee_period], after the agents
    have been stepped and, in batch mode, the books matched: the data
    collector is not called and the step counter does not advance. *)
Theorem step_with_zero_fee_period_raises (h : Havven N Env) :
  fee_period = 0%Z ->
  exists h', step h = (inl ZeroDivisionError, h') /\
    time h' = time h /\ settings h' = settings h /\
    log h' = log h ++ schedule_step ::
               (if match_on_order (settings h) then []
                else [market_match cur_nom_market; market_match cur_fiat_market;
                      market_match nom_fiat_market]).
Proof.
  intros Hp.
  destruct (step_prefix h) as (h1 & T1 & S1 & L1 & ->).
  exists h1. repeat split; try done.
  unfold gets at 1, bind at 1. unfold lift, py_mod, bind at 1.
  now rewrite decide_True by done.
Qed.

Lemma granted_nonneg (h : Havven N Env) (c : N) :
  0 <= exact (Model.curits (settings h)) -> 0 <= granted h c /\
  granted h c <= exact (Model.curits (settings h)) /\ granted h c <= dec_max 0 (exact c).
Proof.
  intros Hp. unfold granted. destruct (decide (0 < exact c)) as [Hc|Hc].
  - assert (dec_max 0 (exact c) = exact c) as -> by (unfold dec_max; now rewrite decide_True).
    destruct (dec_min_cases (exact (Model.curits (settings h))) (exact c))
      as [[-> Hle]|[-> Hlt]]; split_and!; try done;
      try apply Qcle_refl; now apply Qclt_le_weak.
  - assert (dec_max 0 (exact c) = 0) as -> by (unfold dec_max; now rewrite decide_False).
    split_and!; try done; apply Qcle_refl.
Qed.

Lemma exact_num_min (a b : N) : exact (num_min a b) = dec_min (exact a) (exact b).
Proof. unfold num_min, dec_min. now destruct (decide _). Qed.

(** One endowment of an agent of the model, by the value it moves: what
    holds in every number type, and what holds where the arithmetic is
    exact. *)
Lemma endow_curits_step (agent : nat) (c : N) (h : Havven N Env) (a : Agent.t N) :
  agents h !! agent = Some a ->
  exists h1, endow_curits agent c h = (inr tt, h1) /\
    length (agents h1) = length (agents h) /\
    (0 <= exact (Model.curits (settings h)) ->
       0 <= exact (Model.curits (settings h1)) /\
       exact (Model.curits (settings h1)) <= exact (Model.curits (settings h)) /\
       forall j a0 a1, agents h !! j = Some a0 -> agents h1 !! j = Some a1 ->
         exact (Agent.curits a0) <= exact (Agent.curits a1)) /\
    (exact_arithmetic N ->
       total_curits h1 = total_curits h /\
       exact (Model.curits (settings h1)) = exact (Model.curits (settings h)) - granted h c /\
       forall j a0, agents h !! j = Some a0 ->
         exists a1, agents h1 !! j = Some a1 /\
           exact (Agent.curits a1)
           = exact (Agent.curits a0) + (if decide (j = agent) then granted h c else 0)).
Proof.
  intros Ha. rewrite (endow_curits_run _ _ _ _ Ha). eexists. split; [reflexivity|].
  unfold granted. destruct (decide (0 < exact c)) as [Hc|Hc].
  - set (v := num_min (Model.curits (settings h)) c).
    assert (exact v = dec_min (exact (Model.curits (settings h))) (exact c)) as Ev
      by apply exact_num_min.
    cbn [agents settings set_agents set_settings set_curits Model.curits].
    split; [apply length_alter|]. split.
    + intros Hp.
      assert (0 <= exact v /\ exact v <= exact (Model.curits (settings h))) as [Hv0 Hv1].
      { rewrite Ev. destruct (dec_min_cases (exact (Model.curits (settings h))) (exact c))
          as [[-> _]|[-> Hlt]]; split; try done; try apply Qcle_refl; now apply Qclt_le_weak. }
      split; [apply rounded_nonneg; qc_lra|]. split; [apply rounded_below; qc_lra|].
      intros j a0 a1 E0 E1. destruct (decide (agent = j)) as [<-|Hne].
      * rewrite list_lookup_alter_eq, E0 in E1. injection E1 as <-.
        cbn [Agent.curits]. apply rounded_above. qc_lra.
      * rewrite list_lookup_alter_ne, E0 in E1 by done. injection E1 as <-. apply Qcle_refl.
    + intros Hexact. split; [|split; [rewrite <- Ev; apply Hexact|]].
      { unfold total_curits, set_settings, set_agents, set_curits.
        cbn [agents settings Model.curits].
        rewrite (sum_alter (fun a => exact (Agent.curits a)) _ _ _ _ Ha).
        cbn [Agent.curits].
        rewrite (proj1 (Hexact _ _)), (proj2 (Hexact _ _)). ring. }
      intros j a0 E0. destruct (decide (j = agent)) as [->|Hne].
      * rewrite list_lookup_alter_eq, E0. eexists. split; [reflexivity|].
        cbn [Agent.curits]. rewrite <- Ev. apply Hexact.
      * rewrite list_lookup_alter_ne by done. exists a0. split; [done|ring].
  - split; [done|]. split.
    + intros Hp. split; [done|]. split; [apply Qcle_refl|].
      intros j a0 a1 E0 E1. rewrite E0 in E1. injection E1 as <-. apply Qcle_refl.
    + intros _. split; [done|]. split; [ring|]. intros j a0 E0. exists a0. split; [done|].
      destruct (decide _); ring.
Qed.

Lemma asked_nonneg (l : list (nat * N)) : 0 <= asked l.
Proof.
  induction l as [|[a c] l IH]; [apply Qcle_refl|].
  change (0 <= dec_max 0 (exact c) + asked l).
  assert (0 <= dec_max 0 (exact c)).
  { destruct (dec_max_cases 0 (exact c)) as [[-> _]|[-> Hc]];
      [apply Qcle_refl|now apply Qclt_le_weak]. }
  generalize dependent (dec_max 0 (exact c)). intros m Hm. qc_lra.
Qed.

Lemma granted_in_full (h : Havven N Env) (c : N) :
  dec_max 0 (exact c) <= exact (Model.curits (settings h)) ->
  granted h c = dec_max 0 (exact c).
Proof.
  intros Hcover. unfold granted, dec_max in *.
  destruct (decide (0 < exact c)) as [Hc|Hc]; [|done].
  destruct (dec_min_cases (exact (Model.curits (settings h))) (exact c))
    as [[-> Hle]|[-> _]]; [|done].
  now apply Qcle_antisym.
Qed.


(** X14: in a number type whose additions and subtractions are exact,
    when the pool covers the positive amounts asked for, a sequence of
    endowments of agents of the model takes exactly their sum out of the
    pool and every agent ends with its holding plus the positive amounts
    asked for it. *)
Theorem endow_all_in_full (requests : list (nat * N)) (h : Havven N Env) :
  exact_arithmetic N ->
  Forall (fun r => r.1 < length (agents h))%nat requests ->
  asked requests <= exact (Model.curits (settings h)) ->
  exists h', endow_all requests h = (inr tt, h') /\
    exact (Model.curits (settings h')) = exact (Model.curits (settings h)) - asked requests /\
    forall j a, agents h !! j = Some a ->
      exists a', agents h' !! j = Some a' /\
        exact (Agent.curits a') = exact (Agent.curits a) + asked_for j requests.
Proof.
  intros Hexact. revert h. induction requests as [|[agent c] rest IH]; intros h Hvalid Hcover.
  - exists h. split_and!; [done| cbn; ring |].
    intros j a E. exists a. split; [done|]. cbn. ring.
  - apply Forall_cons in Hvalid as [Hagent Hrest]. cbn [fst] in Hagent.
    destruct (lookup_lt_is_Some_2 _ _ Hagent) as [a Ha].
    destruct (endow_curits_step agent c h a Ha) as (h1 & E1 & L1 & _ & Hex1).
    destruct (Hex1 Hexact) as (_ & P1 & A1).
    pose proof (asked_nonneg rest) as Hrest0.
    change (dec_max 0 (exact c) + asked rest <= exact (Model.curits (settings h))) in Hcover.
    assert (granted h c = dec_max 0 (exact c)) as Hg.
    { apply granted_in_full. generalize dependent (dec_max 0 (exact c)). intros. qc_lra. }
    destruct (IH h1) as (h' & E' & P' & Hall).
    { now rewrite L1. }
    { rewrite P1, Hg. generalize dependent (dec_max 0 (exact c)). intros. qc_lra. }
    exists h'. split_and!.
    + cbn [endow_all]. unfold bind. now rewrite E1.
    + rewrite P', P1, Hg.
      change (asked ((agent, c) :: rest)) with (dec_max 0 (exact c) + asked rest). ring.
    + intros j a0 E0. destruct (A1 j a0 E0) as (a1 & Ea1 & Hv1).
      destruct (Hall j a1 Ea1) as (a' & Ea' & Hv'). exists a'. split; [exact Ea'|].
      rewrite Hv', Hv1, Hg. unfold asked_for. rewrite filter_cons. cbn [fst].
      destruct (decide (j = agent)) as [->|Hne].
      * rewrite decide_True by done.
        change (asked ((agent, c) :: filter (fun r => r.1 = agent) rest))
          with (dec_max 0 (exact c) + asked (filter (fun r => r.1 = agent) rest)).
        ring.
      * rewrite decide_False by (intros ->; done). ring.
Qed.







End ModelMore.


(** The model of the scenario, in batch mode at step 6 with a fee period
    of 3, takes a step. *)
Lemma step_trace_witness :
  exists h', Model.step (H := Scenario.idle) Scenario.batch_model = (inr tt, h') /\
    Model.time h' = (Model.time Scenario.batch_model + 1)%Z /\
    Model.settings h' = Model.settings Scenario.batch_model /\
    Model.log h' =
      Model.log Scenario.batch_model ++ step_calls_of (H := Scenario.idle) Scenario.batch_model /\
    (Model.agents h', Model.env h') =
      performed (H := Scenario.idle) (step_calls_of (H := Scenario.idle) Scenario.batch_model)
        (Model.agents Scenario.batch_model, Model.env Scenario.batch_model).
Proof.
  apply (step_trace (H := Scenario.idle) Scenario.batch_model).
  vm_compute. discriminate.
Defined.

(** The model as constructed, matching orders as they are placed, takes
    its first step. *)
Lemma immediate_step_matches_nothing_witness :
  exists rest,
    Model.log (snd (Model.step (H := Scenario.idle) Cases.fresh_model)) =
      Model.log Cases.fresh_model ++ Model.schedule_step :: rest /\
    (forall c, c ∈ rest -> c = Model.distribute_fees \/ c = Model.collect) /\
    (forall b, Model.market_match b ∉ Model.schedule_step :: rest).
Proof.
  apply (immediate_step_matches_nothing (H := Scenario.idle) Cases.fresh_model).
  reflexivity.
Defined.

(** The model of the scenario, in batch mode, with a fee period of
    zero. *)
Lemma step_with_zero_fee_period_raises_witness :
  exists h', Model.step (H := Cases.no_period) Scenario.batch_model
             = (inl ZeroDivisionError, h') /\
    Model.time h' = Model.time Scenario.batch_model /\
    Model.settings h' = Model.settings Scenario.batch_model /\
    Model.log h' =
      Model.log Scenario.batch_model ++ Model.schedule_step ::
        (if Model.match_on_order (Model.settings Scenario.batch_model) then []
         else [Model.market_match Model.cur_nom_market;
               Model.market_match Model.cur_fiat_market;
               Model.market_match Model.nom_fiat_market]).
Proof.
  apply (step_with_zero_fee_period_raises (H := Cases.no_period) Scenario.batch_model).
  reflexivity.
Defined.



(** Out of a pool of 100 curits, agent 0 asks for 30, agent 1 for -5 and
    agent 0 for 20 more, in whole numbers. *)
Lemma endow_all_in_full_witness :
  exists h',
    endow_all (H := Numbers.whole) [(0%nat, 30%Z); (1%nat, (-5)%Z); (0%nat, 20%Z)]
      Scenario.batch_model = (inr tt, h') /\
    Model.exact (Number := Numbers.whole) (Model.curits (Model.settings h')) =
      Model.exact (Number := Numbers.whole) (Model.curits (Model.settings Scenario.batch_model))
      - asked (H := Numbers.whole) [(0%nat, 30%Z); (1%nat, (-5)%Z); (0%nat, 20%Z)] /\
    forall j a, Model.agents Scenario.batch_model !! j = Some a ->
      exists a', Model.agents h' !! j = Some a' /\
        Model.exact (Number := Numbers.whole) (Model.Agent.curits a') =
          Model.exact (Number := Numbers.whole) (Model.Agent.curits a)
          + asked_for (H := Numbers.whole) j
              [(0%nat, 30%Z); (1%nat, (-5)%Z); (0%nat, 20%Z)].
Proof.
  apply (endow_all_in_full (H0 := Numbers.whole)
           [(0%nat, 30%Z); (1%nat, (-5)%Z); (0%nat, 20%Z)] Scenario.batch_model).
  - exact Numbers.whole_exact_arithmetic.
  - repeat (apply Forall_cons; split; [cbn; lia|]). apply Forall_nil_2.
  - vm_compute. discriminate.
Defined.


